(** * chatML: admission, cache and ranking pipeline

    A shallow embedding of the request pipeline of the chatML service
    (src/ml/model.py, src/api/routes/service.py, src/api/routes/session.py,
    src/core/database.py, src/core/redis_client.py) and the properties of
    its rate limiter, result cache, ranker and registration flow.

    External collaborators are modelled by their documented behaviour:
    - Redis is a finite map from key strings to entries with an optional
      expiry; [INCR], [EXPIRE], [GET] and [SET] act on it;
    - MongoDB's [users] collection is a list of documents;
    - PostgreSQL's [api_keys] table is a list of rows; which stored keys a
      [WHERE api_key = %s] takes for its parameter, and which of the rows
      found [fetchone()] hands back, is left to the database;
    - the scoring model ([score_t]) is a function from a (head, relation)
      pair to one score per entity;
    - PyJWT's [decode] loads the segments, checks the algorithm, prepares
      the key, verifies the signature, and then validates the registered
      claims [iat], [nbf], [exp] and [aud], in that order. *)

From Stdlib Require Import ZArith List String Ascii Bool Lia Sorted.
From stdpp Require Import base gmap strings list pretty.

Local Open Scope string_scope.
Local Open Scope Z_scope.
Local Open Scope list_scope.

(** ** Scores

    Scores are Python floats.  The pipeline never computes with them: it
    compares them (inside [torch.topk]), copies them, and writes the literal
    [-1.0].  They are kept abstract: a type with a total order and the
    constant [-1.0].  Not-a-number scores are outside this interface. *)

Class Score (score : Type) := {
  score_leb : score → score → bool;
  score_minus_one : score;
  score_leb_total : ∀ x y, score_leb x y = true ∨ score_leb y x = true;
  score_leb_trans : ∀ x y z,
    score_leb x y = true → score_leb y z = true → score_leb x z = true
}.

#[export] Program Instance Z_Score : Score Z := {|
  score_leb := Z.leb;
  score_minus_one := -1
|}.
Next Obligation. intros x y. rewrite !Z.leb_le. lia. Qed.
Next Obligation. intros x y z. rewrite !Z.leb_le. lia. Qed.

(** ** Python values, exceptions and fallible computations *)

(** The values an [entity_input] can be: an [int], a [bool], a [str], or a
    value of another type, named by its type.  A [bool] is kept apart from
    the other types because [isinstance(x, int)] holds of it: [True] equals
    1 and [False] equals 0. *)
Inductive py_value : Type :=
  | PyInt (n : Z)
  | PyBool (b : bool)
  | PyStr (s : string)
  | PyOther (type_name : string).

(** [str(b)] of a [bool]. *)
Definition py_str_bool (b : bool) : string := if b then "True" else "False".

(** The exceptions the pipeline raises or lets through. *)
Inductive exn : Type :=
  | ValueError (msg : string)
  | TypeError (msg : string)
  | KeyError
  | IndexError
  | OperationalError                    (* psycopg2: connection or query *)
  | ResponseError                       (* redis: value is not an integer *)
  | DataError                           (* redis: key of an unsupported type *)
  | ValidationError                     (* pydantic: response model *)
  | ExpiredSignatureError               (* jwt *)
  | InvalidSignatureError               (* jwt *)
  | DecodeError                         (* jwt *)
  | InvalidAlgorithmError               (* jwt *)
  | ImmatureSignatureError              (* jwt *)
  | InvalidIssuedAtError                (* jwt *)
  | InvalidAudienceError                (* jwt *)
  | InvalidTokenError                   (* jwt: another token error *)
  | InvalidKeyError                     (* jwt: not a token error *)
  | HTTPException (status_code : Z) (detail : string).

Inductive result (A : Type) : Type :=
  | Ok (a : A)
  | Raise (e : exn).
Arguments Ok {A} a.
Arguments Raise {A} e.

(** [result] is an error monad; stdpp's [x ← c; k] sequences it. *)
#[export] Instance result_ret : MRet result := λ A a, Ok a.
#[export] Instance result_bind : MBind result := λ A B k c,
  match c with
  | Ok a => k a
  | Raise e => Raise e
  end.

(** ** Strings as Python uses them *)

(** [needle in s] *)
Fixpoint contains (needle s : string) : bool :=
  String.prefix needle s ||
  match s with
  | EmptyString => false
  | String _ s' => contains needle s'
  end.

(** [s.startswith(p)] *)
Definition startswith (p s : string) : bool := String.prefix p s.

(** [s.split(sep)] for a one-character separator: the pieces between the
    occurrences of [sep], empty pieces included. *)
Fixpoint split (sep : ascii) (s : string) : list string :=
  match s with
  | EmptyString => [EmptyString]
  | String c s' =>
      if Ascii.eqb c sep then EmptyString :: split sep s'
      else match split sep s' with
           | [] => [String c EmptyString]
           | piece :: pieces => String c piece :: pieces
           end
  end.

(** [s.split(sep, 1)]: cut at the first occurrence of [sep] only. *)
Fixpoint split_once (sep : ascii) (s : string) : list string :=
  match s with
  | EmptyString => [EmptyString]
  | String c s' =>
      if Ascii.eqb c sep then [EmptyString; s']
      else match split_once sep s' with
           | [] => [String c EmptyString]
           | piece :: pieces => String c piece :: pieces
           end
  end.

(** [l[i]] on a Python list or tuple: negative indices count from the end,
    anything out of range raises [IndexError]. *)
Definition py_index {A} (l : list A) (i : Z) : result A :=
  let n := Z.of_nat (length l) in
  if (0 <=? i) && (i <? n) then
    match l !! Z.to_nat i with Some x => Ok x | None => Raise IndexError end
  else if (- n <=? i) && (i <? 0) then
    match l !! Z.to_nat (n + i) with Some x => Ok x | None => Raise IndexError end
  else Raise IndexError.

(** A dictionary subscript [d[k]]: [KeyError] when the key is absent. *)
Definition dict_get `{Countable K} {V} (d : gmap K V) (k : K) : result V :=
  match d !! k with
  | Some v => Ok v
  | None => Raise KeyError
  end.

(** A list comprehension [[f(x) for x in l]] whose body can raise. *)
Fixpoint comprehension {A B} (f : A → result B) (l : list A) : result (list B) :=
  match l with
  | [] => Ok []
  | x :: l' => y ← f x; ys ← comprehension f l'; Ok (y :: ys)
  end.

Section Pipeline.
Context `{Score score}.

(** ** src/ml/model.py: the ranker *)

(** PyKEEN's [TriplesFactory]: the two index tables the wrapper reads. *)
Record TriplesFactory : Type := {
  entity_to_id : gmap string Z;
  entity_id_to_label : gmap Z string
}.

(** [TransHModel] after [load()]: the scoring model, the triples factory
    and the candidate set.  [model_score_t head relation] is
    [self.model.score_t(torch.tensor([[head, relation]]))], a row with one
    score per entity. *)
Record TransHModel : Type := {
  model_score_t : Z → Z → list score;
  triples_factory : TriplesFactory;
  heads : list string;
  heads_idx : list Z
}.

(** [_filter_head] of [load()]. *)
Definition _filter_head (x : string) : bool :=
  if negb (contains "pronto.owl#space_site" x) then false
  else
    match split_once "#" x !! 1%nat with
    | Some after_hash =>
        let tokens := split "_" after_hash in
        Z.of_nat (length tokens) =? 3
    | None => false
    end.

(** A cell of the [head] column as [pd.read_csv] yields it: the text of
    the field, or a value that is no string, named by its type (the [float]
    NaN of an empty or NA field, a number when every field of the column is
    one). *)
Inductive cell : Type :=
  | CellStr (s : string)
  | CellOther (type_name : string).

(** [df[df['head'].apply(_filter_head)]['head'].values]: the filter is
    applied to the cells from the first to the last, and the cells it
    accepts are kept.  On a cell that is no string the test
    ['pronto.owl#space_site' not in x] raises [TypeError], with the
    message of the interpreter. *)
Fixpoint filter_heads (column : list cell) : result (list string) :=
  match column with
  | [] => Ok []
  | CellStr x :: column' =>
      kept ← filter_heads column';
      Ok (if _filter_head x then x :: kept else kept)
  | CellOther type_name :: _ =>
      Raise (TypeError
        ("argument of type '" +:+ type_name +:+ "' is not iterable"))
  end.

(** [load()]: [df_head] is the [head] column of the dataset; [read_csv]
    raises on a file without rows, so the column has a cell. *)
Definition load (model : Z → Z → list score) (tf : TriplesFactory)
    (df_head : list cell) : result TransHModel :=
  heads ← filter_heads df_head;
  heads_idx ← comprehension (λ h, dict_get (entity_to_id tf) h) heads;
  Ok {| model_score_t := model;
        triples_factory := tf;
        heads := heads;
        heads_idx := heads_idx |}.

(** [x in l] on a list of integers. *)
Definition py_in (x : Z) (l : list Z) : bool := bool_decide (x ∈ l).

(** [_validate_input].  A [bool] takes the branch of [isinstance(x, int)]:
    it is looked up as 1 or 0, printed as [True] or [False], and returned
    as it is; what follows reads it as 1 or 0 again. *)
Definition _validate_input (self : TransHModel) (entity_input : py_value)
    : result Z :=
  match entity_input with
  | PyInt n =>
      if py_in n (heads_idx self) then Ok n
      else Raise (ValueError ("ID '" +:+ pretty n +:+ "' not found in heads_idx."))
  | PyBool b =>
      if py_in (Z.b2z b) (heads_idx self) then Ok (Z.b2z b)
      else Raise (ValueError
             ("ID '" +:+ py_str_bool b +:+ "' not found in heads_idx."))
  | PyStr s =>
      match entity_to_id (triples_factory self) !! s with
      | Some e_id =>
          if py_in e_id (heads_idx self) then Ok e_id
          else Raise (ValueError
                 ("Entity label '" +:+ s +:+ "' (ID " +:+ pretty e_id
                  +:+ ") not allowed (not in heads_idx)."))
      | None =>
          Raise (ValueError
            ("Entity label '" +:+ s +:+ "' not found in TriplesFactory."))
      end
  | PyOther _ =>
      Raise (TypeError
        "entity_input must be an integer (ID) or a string (label).")
  end.

(** [_safe_resolve]: [heads_idx[index]], or [None] on [IndexError]. *)
Definition _safe_resolve (self : TransHModel) (index : Z) : option Z :=
  match py_index (heads_idx self) index with
  | Ok resolved_id => Some resolved_id
  | Raise _ => None
  end.

(** The inner loop of [_extract_top_entities] over one row.  The flag of
    the outcome tells whether the loop left through [return results]. *)
Fixpoint extract_row (self : TransHModel) (top_k : Z)
    (row : list (Z * score)) (results : list (string * score))
    : result (bool * list (string * score)) :=
  match row with
  | [] => Ok (false, results)
  | (idx, val) :: row' =>
      match _safe_resolve self idx with
      | Some resolved_id =>
          label ← dict_get (entity_id_to_label (triples_factory self)) resolved_id;
          let results := results ++ [(label, val)] in
          if top_k <=? Z.of_nat (length results) then Ok (true, results)
          else extract_row self top_k row' results
      | None => extract_row self top_k row' results
      end
  end.

(** The outer loop over the rows (the batch dimension). *)
Fixpoint extract_rows (self : TransHModel) (top_k : Z)
    (rows : list (list Z * list score)) (results : list (string * score))
    : result (list (string * score)) :=
  match rows with
  | [] => Ok results
  | (row_indices, row_values) :: rows' =>
      '(returned, results) ←
        extract_row self top_k (zip row_indices row_values) results;
      if returned : bool then Ok results
      else extract_rows self top_k rows' results
  end.

Definition _extract_top_entities (self : TransHModel)
    (values : list (list score)) (indices : list (list Z)) (top_k : Z)
    : result (list (string * score)) :=
  extract_rows self top_k (zip indices values) [].

(** [torch.topk(scores, k=N, dim=1, largest=False)] on one row: the scores
    in ascending order, each with the position it had.  Torch leaves the
    order of equal scores open; here the earlier position comes first. *)
Fixpoint insert_asc (x : score * Z) (l : list (score * Z)) : list (score * Z) :=
  match l with
  | [] => [x]
  | y :: l' => if score_leb x.1 y.1 then x :: l else y :: insert_asc x l'
  end.

Definition topk_asc (scores : list score) : list score * list Z :=
  let sorted :=
    foldr insert_asc [] (zip scores (seqZ 0 (Z.of_nat (length scores)))) in
  (sorted.*1, sorted.*2).

Definition predict_similarity (self : TransHModel) (entity_input : py_value)
    (relation_idx : Z) (top_k : Z) : result (list (string * score)) :=
  match _validate_input self entity_input with
  | Raise (ValueError msg) => Ok [(msg, score_minus_one)]
  | Raise (TypeError msg) => Ok [(msg, score_minus_one)]
  | Raise e => Raise e
  | Ok valid_id =>
      let scores := model_score_t self valid_id relation_idx in
      let '(values, indices) := topk_asc scores in
      _extract_top_entities self [values] [indices] top_k
  end.

(** ** src/core/redis_client.py: the shared Redis store

    Redis holds strings.  The pipeline writes two kinds of them, and a value
    is modelled by what it encodes: the decimal text of a counter
    ([RedisInt]) or the JSON text of a document ([RedisText]).  Both texts
    are non-empty, so both are truthy when read back. *)

#[warnings="-register-all"]
Inductive json : Type :=
  | JInt (n : Z)
  | JFloat (x : score)
  | JStr (s : string)
  | JList (items : list json).

Inductive redis_value : Type :=
  | RedisInt (n : Z)
  | RedisText (doc : json).

(** An entry and the time (epoch seconds) at which it expires, if any. *)
Record redis_entry : Type := {
  entry_value : redis_value;
  entry_expiry : option Z
}.

Abbreviation redis := (gmap string redis_entry).

Definition entry_live (now : Z) (e : redis_entry) : bool :=
  match entry_expiry e with
  | Some deadline => now <? deadline
  | None => true
  end.

(** The entry under [key] that has not expired at [now]. *)
Definition redis_lookup (now : Z) (key : string) (r : redis) : option redis_entry :=
  match r !! key with
  | Some e => if entry_live now e then Some e else None
  | None => None
  end.

Definition INT64_MAX : Z := 9223372036854775807.

(** [INCR key]: a missing key counts from 0; the expiry of an existing key
    is kept; a value that is not a 64-bit integer, or would overflow, is an
    error and nothing is written. *)
Definition redis_incr (now : Z) (key : string) (r : redis) : result Z * redis :=
  match redis_lookup now key r with
  | None =>
      (Ok 1, <[key := {| entry_value := RedisInt 1; entry_expiry := None |}]> r)
  | Some e =>
      match entry_value e with
      | RedisInt n =>
          if n <? INT64_MAX then
            (Ok (n + 1),
             <[key := {| entry_value := RedisInt (n + 1);
                         entry_expiry := entry_expiry e |}]> r)
          else (Raise ResponseError, r)
      | RedisText _ => (Raise ResponseError, r)
      end
  end.

(** [EXPIRE key seconds] *)
Definition redis_expire (now : Z) (key : string) (seconds : Z) (r : redis) : redis :=
  match redis_lookup now key r with
  | Some e =>
      <[key := {| entry_value := entry_value e;
                  entry_expiry := Some (now + seconds) |}]> r
  | None => r
  end.

(** [GET key] *)
Definition redis_get (now : Z) (key : string) (r : redis) : option redis_value :=
  entry_value <$> redis_lookup now key r.

(** [SET key value]: the entry is replaced and has no expiry. *)
Definition redis_set (key : string) (v : redis_value) (r : redis) : redis :=
  <[key := {| entry_value := v; entry_expiry := None |}]> r.

(** How redis-py encodes a key: an [int] by its decimal text, a [str] as it
    is; a [bool] is refused by name, before the test for [int], and so are
    the other types. *)
Definition redis_key (key : py_value) : result string :=
  match key with
  | PyInt n => Ok (pretty n)
  | PyBool _ => Raise DataError
  | PyStr s => Ok s
  | PyOther _ => Raise DataError
  end.

(** [json.dumps(results)]: a list of two-element lists. *)
Definition json_dumps (results : list (string * score)) : json :=
  JList ((λ p, JList [JStr p.1; JFloat p.2]) <$> results).

(** [json.loads(cached_data)] *)
Definition json_loads (v : redis_value) : json :=
  match v with
  | RedisInt n => JInt n
  | RedisText doc => doc
  end.

(** The dictionary [{"cache": ..., "result": ...}] *)
Record cached_response : Type := {
  cached_cache : bool;
  cached_result : json
}.

Definition get_cached_results (now : Z) (key : py_value) (r : redis)
    : result (option cached_response) :=
  k ← redis_key key;
  match redis_get now k r with
  | Some cached_data =>
      Ok (Some {| cached_cache := true; cached_result := json_loads cached_data |})
  | None => Ok None
  end.

Definition set_cached_results (key : py_value) (results : list (string * score))
    (r : redis) : result bool * redis :=
  let json_results := json_dumps results in
  match redis_key key with
  | Ok k => (Ok true, redis_set k (RedisText json_results) r)
  | Raise e => (Raise e, r)
  end.

(** Handlers run against the shared store: a computation takes the store
    and gives back an outcome and the store it leaves, which is kept also
    when the outcome is an exception. *)
Definition io (A : Type) : Type := redis → result A * redis.

#[export] Instance io_ret : MRet io := λ A a r, (Ok a, r).
#[export] Instance io_bind : MBind io := λ A B k c r,
  match c r with
  | (Ok a, r') => k a r'
  | (Raise e, r') => (Raise e, r')
  end.

Definition raise {A} (e : exn) : io A := λ r, (Raise e, r).
Definition lift {A} (c : result A) : io A := λ r, (c, r).
Definition reading {A} (f : redis → result A) : io A := λ r, (f r, r).

(** ** src/api/routes/service.py *)

(** *** PyJWT

    [jwt.decode(token, key, algorithms=["HS256"])] is library code; it is
    modelled by the steps it takes and the exception each step ends in. *)

(** A time claim of the payload as its validation meets it: absent, a
    number (what [int(payload[name])] gives), a value that [int()] turns
    down with [ValueError] (a text that is no numeral), or one it turns
    down with [TypeError] ([null], a list, an object). *)
Inductive claim : Type :=
  | ClaimAbsent
  | ClaimInt (v : Z)
  | ClaimNotInt
  | ClaimNoNumber (msg : string).

(** The registered claims of a payload.  [claim_aud] tells whether the
    payload has a non-empty [aud]; [claim_rest] whether one of the checks
    that follow the one of [aud] refuses the token (recent versions look at
    the types of [sub] and [jti]). *)
Record jwt_payload : Type := {
  claim_iat : claim;
  claim_nbf : claim;
  claim_exp : claim;
  claim_aud : bool;
  claim_rest : bool
}.

(** What the library finds in a token and a key: whether the token splits
    into three decodable segments with a header, the [alg] of the header,
    whether the HMAC algorithm takes the key (a PEM or SSH key is turned
    down), whether the signature verifies under the key, and the payload,
    if it is a JSON object. *)
Record JwtBackend : Type := {
  jwt_parses : string → bool;
  jwt_header_alg : string → option string;
  jwt_key_usable : string → bool;
  jwt_signature_ok : string → string → bool;
  jwt_payload_of : string → option jwt_payload
}.

(** [HMACAlgorithm.prepare_key]: a key that is no string, such as the
    [None] of an unset variable, is a [TypeError]. *)
Definition jwt_prepare_key (lib : JwtBackend) (key : option string)
    : result string :=
  match key with
  | None => Raise (TypeError "Expected a string value")
  | Some k => if jwt_key_usable lib k then Ok k else Raise InvalidKeyError
  end.

(** The validation of a time claim catches the [ValueError] of [int()]
    and raises a token error in its place; a [TypeError] goes through. *)
Definition jwt_validate_iat (c : claim) (now : Z) : result unit :=
  match c with
  | ClaimAbsent => Ok ()
  | ClaimInt iat => if now <? iat then Raise ImmatureSignatureError else Ok ()
  | ClaimNotInt => Raise InvalidIssuedAtError
  | ClaimNoNumber msg => Raise (TypeError msg)
  end.

Definition jwt_validate_nbf (c : claim) (now : Z) : result unit :=
  match c with
  | ClaimAbsent => Ok ()
  | ClaimInt nbf => if now <? nbf then Raise ImmatureSignatureError else Ok ()
  | ClaimNotInt => Raise DecodeError
  | ClaimNoNumber msg => Raise (TypeError msg)
  end.

Definition jwt_validate_exp (c : claim) (now : Z) : result unit :=
  match c with
  | ClaimAbsent => Ok ()
  | ClaimInt exp => if exp <=? now then Raise ExpiredSignatureError else Ok ()
  | ClaimNotInt => Raise DecodeError
  | ClaimNoNumber msg => Raise (TypeError msg)
  end.

(** The claims are validated in the order [iat], [nbf], [exp], [aud] and
    the rest.  No audience is passed to [decode], so a token that names
    one is refused. *)
Definition jwt_validate_claims (payload : jwt_payload) (now : Z) : result unit :=
  _ ← jwt_validate_iat (claim_iat payload) now;
  _ ← jwt_validate_nbf (claim_nbf payload) now;
  _ ← jwt_validate_exp (claim_exp payload) now;
  _ ← (if claim_aud payload then Raise InvalidAudienceError else Ok ());
  if claim_rest payload then Raise InvalidTokenError else Ok ().

(** [jwt.decode]: the segments are loaded, the algorithm of the header is
    looked up among [algorithms], the key is prepared, the signature is
    verified, and only then the payload is read and its claims are
    validated. *)
Definition jwt_decode (lib : JwtBackend) (token : string) (key : option string)
    (algorithms : list string) (now : Z) : result unit :=
  if negb (jwt_parses lib token) then Raise DecodeError
  else
    match jwt_header_alg lib token with
    | None => Raise InvalidAlgorithmError
    | Some alg =>
        if negb (bool_decide (alg ∈ algorithms)) then Raise InvalidAlgorithmError
        else
          prepared_key ← jwt_prepare_key lib key;
          if negb (jwt_signature_ok lib prepared_key token)
          then Raise InvalidSignatureError
          else
            match jwt_payload_of lib token with
            | None => Raise DecodeError
            | Some payload => jwt_validate_claims payload now
            end
    end.

(** [isinstance(e, jwt.InvalidTokenError)]: the base class of the token
    errors; [InvalidKeyError] is not one of them. *)
Definition is_InvalidTokenError (e : exn) : bool :=
  match e with
  | ExpiredSignatureError | InvalidSignatureError | DecodeError
  | InvalidAlgorithmError | ImmatureSignatureError | InvalidIssuedAtError
  | InvalidAudienceError | InvalidTokenError => true
  | _ => false
  end.

(** *** The key table *)

(** A row of the [api_keys] table. *)
Record api_key_row : Type := {
  row_api_key : string;
  row_user_email : string;
  row_account_type : string
}.

(** PostgreSQL, as far as [SELECT * FROM api_keys WHERE api_key = %s] and
    [fetchone()] show it: whether the connection or the query raises,
    which stored keys the comparison of the column takes for the
    parameter, and the position, among the rows found, of the row that
    comes back first.  The statement has no [ORDER BY], so that position is
    the database's choice. *)
Record Postgres : Type := {
  select_raises : bool;
  sql_eq : string → string → bool;
  fetch_first : list api_key_row → nat
}.

(** [get_api_key_info]: one of the rows the query finds, if it finds any
    ([fetch_first] is read modulo their number).  No error of the database
    is caught. *)
Definition get_api_key_info (pg : Postgres) (api_keys : list api_key_row)
    (api_key : string) : result (option api_key_row) :=
  if select_raises pg then Raise OperationalError
  else
    let found :=
      List.filter (λ row, sql_eq pg (row_api_key row) api_key) api_keys in
    Ok (found !! (fetch_first pg found `mod` length found)%nat).

Record SimilarityRequest : Type := {
  req_api_key : string;
  req_entity_input : py_value
}.

Record SimilarityResponse : Type := {
  cache : bool;
  result_list : list (string * score)
}.

(** Validation of [result: List[Tuple[str, float]]]. *)
Fixpoint validate_pairs (items : list json) : result (list (string * score)) :=
  match items with
  | [] => Ok []
  | JList [JStr label; JFloat x] :: items' =>
      rest ← validate_pairs items'; Ok ((label, x) :: rest)
  | _ => Raise ValidationError
  end.

(** [SimilarityResponse] built from the cached dictionary. *)
Definition SimilarityResponse_of (c : cached_response) : result SimilarityResponse :=
  match cached_result c with
  | JList items =>
      pairs ← validate_pairs items;
      Ok {| cache := cached_cache c; result_list := pairs |}
  | _ => Raise ValidationError
  end.

Definition RATE_LIMITS : gmap string Z :=
  {[ "FREEMIUM" := 5; "PREMIUM" := 50 ]}.

(** [RATE_LIMITS.get(account_type, RATE_LIMITS["FREEMIUM"])] *)
Definition rate_limit_of (account_type : string) : result Z :=
  fallback ← dict_get RATE_LIMITS "FREEMIUM";
  Ok (default fallback (RATE_LIMITS !! account_type)).

Definition usage_key (api_key : string) (current_minute : Z) : string :=
  "usage:" +:+ api_key +:+ ":" +:+ pretty current_minute.

Definition _check_rate_limit (now : Z) (api_key account_type : string) : io unit :=
  let current_minute := now / 60 in
  let redis_key := usage_key api_key current_minute in
  usage_count ← redis_incr now redis_key;
  _ ← (if usage_count =? 1
       then λ r, (Ok (), redis_expire now redis_key 60 r)
       else mret ());
  limit ← lift (rate_limit_of account_type);
  if limit <? usage_count
  then raise (HTTPException 429 "Rate limit exceeded. Please try again later.")
  else mret ().

(** What a request handler sees of the process: [SECRET_KEY] is what
    [os.getenv("SECRET_KEY")] returns, nothing when the variable is unset. *)
Record app_state : Type := {
  SECRET_KEY : option string;
  jwt : JwtBackend;
  postgres : Postgres;
  api_keys : list api_key_row;
  transh_model : TransHModel
}.

(** The cache check, the inference and the cache write of
    [similarity_service]. *)
Definition serve_entity (app : app_state) (now : Z) (entity_input : py_value)
    : io SimilarityResponse :=
  cached_response ← reading (get_cached_results now entity_input);
  match cached_response with
  | Some c => lift (SimilarityResponse_of c)
  | None =>
      probability ← lift (predict_similarity (transh_model app) entity_input 5 10);
      _ ← set_cached_results entity_input probability;
      mret {| cache := false; result_list := probability |}
  end.

(** The first step of [similarity_service]: "Validate JWT".  An exception
    of [jwt.decode] that is no token error is not caught. *)
Definition validate_jwt (app : app_state) (now : Z)
    (authorization : option string) : io unit :=
  match authorization with
  | None => raise (HTTPException 401 "JWT Token not provided.")
  | Some token_header =>
      if String.eqb token_header "" || negb (startswith "Bearer " token_header)
      then raise (HTTPException 401 "JWT Token not provided.")
      else
        token ← lift (py_index (split " " token_header) 1);
        match jwt_decode (jwt app) token (SECRET_KEY app) ["HS256"] now with
        | Ok _ => mret ()
        | Raise ExpiredSignatureError =>
            raise (HTTPException 401 "JWT Token has expired.")
        | Raise e =>
            if is_InvalidTokenError e
            then raise (HTTPException 401 "Invalid JWT Token.")
            else raise e
        end
  end.

(** The second step: "Validate API Key".  The key of the row that comes
    back is compared with the key supplied, as Python compares strings.
    The row always has its [account_type] column, so the default of
    [database_info.get("account_type", "FREEMIUM")] is never taken. *)
Definition validate_api_key (app : app_state) (api_key : string)
    : io api_key_row :=
  if String.eqb api_key ""
  then raise (HTTPException 401 "API Key not provided.")
  else
    database_info ←
      lift (get_api_key_info (postgres app) (api_keys app) api_key);
    match database_info with
    | None => raise (HTTPException 401 "Invalid API Key.")
    | Some database_info =>
        if negb (String.eqb (row_api_key database_info) api_key)
        then raise (HTTPException 401 "Invalid API Key.")
        else mret database_info
    end.

(** The steps before the cache is consulted: token, API key, rate limit. *)
Definition admission (app : app_state) (now : Z)
    (authorization : option string) (req_data : SimilarityRequest) : io unit :=
  _ ← validate_jwt app now authorization;
  let api_key := req_api_key req_data in
  database_info ← validate_api_key app api_key;
  let account_type := row_account_type database_info in
  _check_rate_limit now api_key account_type.

Definition similarity_service (app : app_state) (now : Z)
    (authorization : option string) (req_data : SimilarityRequest)
    : io SimilarityResponse :=
  _ ← admission app now authorization req_data;
  serve_entity app now (req_entity_input req_data).

End Pipeline.

Arguments TransHModel score : clear implicits.
Arguments json score : clear implicits.
Arguments redis_value score : clear implicits.
Arguments redis_entry score : clear implicits.
Arguments cached_response score : clear implicits.
Arguments SimilarityResponse score : clear implicits.
Arguments app_state score : clear implicits.
Arguments io score A : clear implicits.

Abbreviation redis score := (gmap string (redis_entry score)).

(** ** src/core/database.py and src/api/routes/session.py: registration *)

(** A document of MongoDB's [users] collection. *)
Record user_doc : Type := {
  doc_email : string;
  doc_password : string
}.

(** The two stores registration writes to. *)
Record databases : Type := {
  users : list user_doc;
  api_keys_table : list api_key_row
}.

(** What the outside world does during one call: the hash that
    [pwd_context.hash] draws, the token that [secrets.token_hex] draws, and
    which database operations raise. *)
Record world : Type := {
  pwd_context_hash : string → string;
  token_hex : string;
  mongo_find_raises : bool;
  mongo_insert_raises : bool;
  postgres_raises : bool
}.

Definition API_KEY_LENGTH : Z := 16.
Definition CONDITION : string := "gmail.com".

(** [get_user_info]: [find_one({"email": email})] *)
Definition get_user_info (db : databases) (email : string) : option user_doc :=
  List.find (λ doc, String.eqb (doc_email doc) email) (users db).

Definition create_user_in_db (w : world) (email password : string)
    (db : databases) : bool * databases :=
  if mongo_find_raises w then (false, db)
  else
    match get_user_info db email with
    | Some existing_user => (false, db)
    | None =>
        if mongo_insert_raises w then (false, db)
        else
          (true,
           {| users := users db ++
                [{| doc_email := email; doc_password := password |}];
              api_keys_table := api_keys_table db |})
    end.

(** What [insert_api_key_in_db] returns: the pair [(api_key, account_type)],
    or a string. *)
Inductive db_response : Type :=
  | ResponseTuple (api_key account_type : string)
  | ResponseStr (s : string).

(** [token_hex w] is what [secrets.token_hex(API_KEY_LENGTH)] draws.  A
    failure inside the [try] rolls the insertion back and the empty string
    is returned.  [RETURNING api_key] hands the inserted key back, so the
    [return ""] that follows [if row:] is not reached. *)
Definition insert_api_key_in_db (w : world) (user_email : string)
    (db : databases) : db_response * databases :=
  let new_api_key := token_hex w in
  if postgres_raises w then (ResponseStr "", db)
  else
    let account_type :=
      if contains CONDITION user_email then "PREMIUM" else "FREEMIUM" in
    let row := {| row_api_key := new_api_key;
                  row_user_email := user_email;
                  row_account_type := account_type |} in
    (ResponseTuple (row_api_key row) account_type,
     {| users := users db; api_keys_table := api_keys_table db ++ [row] |}).

(** [db_response[i]] *)
Definition response_index (r : db_response) (i : Z) : result string :=
  match r with
  | ResponseTuple api_key account_type => py_index [api_key; account_type] i
  | ResponseStr s =>
      c ← py_index (list_ascii_of_string s) i; Ok (String c EmptyString)
  end.

Record RegisterRequest : Type := {
  email : string;
  password : string
}.

Record APIKeyResponse : Type := {
  resp_api_key : option string;
  resp_token : option string;
  resp_message : option string;
  resp_account_type : option string
}.

Definition register_user (w : world) (req_data : RegisterRequest)
    (db : databases) : result APIKeyResponse * databases :=
  let hashed_pw := pwd_context_hash w (password req_data) in
  let '(created, db) := create_user_in_db w (email req_data) hashed_pw db in
  if negb created then
    (Raise (HTTPException 400 "User already exists or error creating user."), db)
  else
    let '(response, db) := insert_api_key_in_db w (email req_data) db in
    (api_key ← response_index response 0;
     account_type ← response_index response 1;
     Ok {| resp_api_key := Some api_key;
           resp_token := None;
           resp_message := Some "User registered successfully. Copy your API Key and keep it safe! IT WON'T BE SHOWN AGAIN.";
           resp_account_type := Some account_type |},
     db).

(** A run of registration calls, each with what the world does during it;
    the outcomes are dropped, the stores are threaded through. *)
Fixpoint register_all (calls : list (world * RegisterRequest)) (db : databases)
    : databases :=
  match calls with
  | [] => db
  | (w, req_data) :: calls' => register_all calls' (register_user w req_data db).2
  end.

(** ** src/api/routes/session.py: login *)

(** What login needs from outside: [pwd_context.verify(secret, hash)],
    [os.getenv("SECRET_KEY")], and
    [jwt.encode({"sub": sub, "exp": exp}, key, algorithm="HS256")]. *)
Record session_world : Type := {
  pwd_context_verify : string → string → bool;
  getenv_SECRET_KEY : option string;
  jwt_encode : string → Z → string → string
}.

Definition _verify_user_credentials (sw : session_world) (db : databases)
    (email password : string) : bool :=
  match get_user_info db email with
  | None => false
  | Some user =>
      let hashed_pw := doc_password user in
      pwd_context_verify sw password hashed_pw
  end.

(** [_generate_jwt_for_user].  When the secret is missing or empty the
    code builds [HTTPException(status_code=..., message=...)]; the
    constructor takes [status_code], [detail] and [headers] only, so the
    call itself raises [TypeError] and no [HTTPException] comes out. *)
Definition _generate_jwt_for_user (sw : session_world) (now : Z)
    (user_email : string) : result string :=
  match getenv_SECRET_KEY sw with
  | None =>
      Raise (TypeError
        "HTTPException.__init__() got an unexpected keyword argument 'message'")
  | Some secret_key =>
      if String.eqb secret_key "" then
        Raise (TypeError
          "HTTPException.__init__() got an unexpected keyword argument 'message'")
      else Ok (jwt_encode sw user_email (now + 3600) secret_key)
  end.

Definition login_user (sw : session_world) (now : Z) (req_data : RegisterRequest)
    (db : databases) : result APIKeyResponse :=
  let is_valid :=
    _verify_user_credentials sw db (email req_data) (password req_data) in
  if negb is_valid then
    Raise (HTTPException 400 "Invalid email or password.")
  else
    jwt_token ← _generate_jwt_for_user sw now (email req_data);
    Ok {| resp_api_key := None;
          resp_token := Some jwt_token;
          resp_message := Some "Welcome back!";
          resp_account_type := None |}.

(** * Vocabulary of the properties *)

Section Vocabulary.
Context `{Score score}.
Implicit Types (self : TransHModel score) (row : list (Z * score)).

(** Every candidate has a label: what [load()] establishes, since it draws
    [heads_idx] from [entity_to_id]. *)
Definition labels_total self : Prop :=
  ∀ h, h ∈ heads_idx self →
    is_Some (entity_id_to_label (triples_factory self) !! h).

(** The two tables of a triples factory are inverse to each other. *)
Definition tables_agree (tf : TriplesFactory) : Prop :=
  ∀ label i, entity_to_id tf !! label = Some i →
    entity_id_to_label tf !! i = Some label.

(** The candidate-set projection of a ranked row: the positions that fall
    inside the candidate table, each with the label of the candidate found
    there and the score ranked at that position. *)
Definition candidate_projection self row : list (string * score) :=
  omap (λ p, resolved_id ← _safe_resolve self p.1;
             label ← entity_id_to_label (triples_factory self) !! resolved_id;
             Some (label, p.2)) row.

(** The positions of a ranking that fall inside the candidate table. *)
Definition valid_positions self (indices : list Z) : list Z :=
  List.filter (λ idx, bool_decide (is_Some (_safe_resolve self idx))) indices.

(** Adjacent scores ascend. *)
Definition ascending (l : list score) : Prop :=
  ∀ (i : nat) x y, l !! i = Some x → l !! S i = Some y → score_leb x y = true.

Definition score_le (x y : score) : Prop := score_leb x y = true.

(** The three ways validation fails, as the specification names them. *)
Inductive failure_kind : Type :=
  | EntityNotAllowed
  | UnknownEntityLabel
  | InvalidEntityInputType.

(** The exception by which [_validate_input] signals each of them: its
    class and the shape of its message. *)
Inductive signals : failure_kind → exn → Prop :=
  | signals_id_not_allowed (n : Z) :
      signals EntityNotAllowed
        (ValueError ("ID '" +:+ pretty n +:+ "' not found in heads_idx."))
  | signals_bool_not_allowed (b : bool) :
      signals EntityNotAllowed
        (ValueError ("ID '" +:+ py_str_bool b +:+ "' not found in heads_idx."))
  | signals_label_not_allowed (s : string) (e_id : Z) :
      signals EntityNotAllowed
        (ValueError ("Entity label '" +:+ s +:+ "' (ID " +:+ pretty e_id
                     +:+ ") not allowed (not in heads_idx)."))
  | signals_unknown_label (s : string) :
      signals UnknownEntityLabel
        (ValueError ("Entity label '" +:+ s +:+ "' not found in TriplesFactory."))
  | signals_invalid_type :
      signals InvalidEntityInputType
        (TypeError "entity_input must be an integer (ID) or a string (label).").

(** The value of the counter under [key] as [INCR] would see it at [now]:
    0 for a key that is missing or has expired, nothing for a key that
    holds a document. *)
Definition counter_at (now : Z) (key : string) (r : redis score) : option Z :=
  match redis_lookup now key r with
  | None => Some 0
  | Some e =>
      match entry_value e with
      | RedisInt n => Some n
      | RedisText _ => None
      end
  end.

(** A run of rate-limit checks for one key, at the given times. *)
Fixpoint check_all (times : list Z) (api_key account_type : string)
    (r : redis score) : list (result ()) * redis score :=
  match times with
  | [] => ([], r)
  | now :: times' =>
      let '(outcome, r) := _check_rate_limit now api_key account_type r in
      let '(outcomes, r) := check_all times' api_key account_type r in
      (outcome :: outcomes, r)
  end.

(** The outcome of the check that brings the counter to [usage_count]. *)
Definition verdict (limit usage_count : Z) : result () :=
  if usage_count <=? limit then Ok ()
  else Raise (HTTPException 429 "Rate limit exceeded. Please try again later.").

(** Documents in the store carry no expiry: the state of a store that
    starts empty and is written by the pipeline only. *)
Definition cache_persistent (r : redis score) : Prop :=
  ∀ key e doc,
    r !! key = Some e → entry_value e = RedisText doc → entry_expiry e = None.

(** The entry under which a document is cached for good. *)
Definition cached_entry (doc : json score) : redis_entry score :=
  {| entry_value := RedisText doc; entry_expiry := None |}.

End Vocabulary.

(** ** A small deployment, for the worked requests

    Four entities, two of them candidates; one key holder; integer scores
    stand in for floats; a stand-in for PyJWT accepts the signature of the
    token [good] only, and reads from every token a payload that expires
    with the year 2099. *)

Definition sample_factory : TriplesFactory := {|
  entity_to_id := {[ "a" := 0; "b" := 1; "c" := 2; "d" := 3 ]};
  entity_id_to_label := {[ 0 := "a"; 1 := "b"; 2 := "c"; 3 := "d" ]}
|}.

Definition sample_model : TransHModel Z := {|
  model_score_t := λ _ _, [30; 10; 40; 20];
  triples_factory := sample_factory;
  heads := ["c"; "a"];
  heads_idx := [2; 0]
|}.

Definition sample_jwt : JwtBackend := {|
  jwt_parses := λ _, true;
  jwt_header_alg := λ _, Some "HS256";
  jwt_key_usable := λ _, true;
  jwt_signature_ok := λ _ token, String.eqb token "good";
  jwt_payload_of := λ _,
    Some {| claim_iat := ClaimAbsent;
            claim_nbf := ClaimAbsent;
            claim_exp := ClaimInt 4102444800;
            claim_aud := false;
            claim_rest := false |}
|}.

(** A database that answers, compares keys letter by letter and hands
    back the rows in the order of the table. *)
Definition sample_postgres : Postgres := {|
  select_raises := false;
  sql_eq := String.eqb;
  fetch_first := λ _, 0%nat
|}.

Definition sample_app : app_state Z := {|
  SECRET_KEY := Some "secret";
  jwt := sample_jwt;
  postgres := sample_postgres;
  api_keys := [{| row_api_key := "k1";
                  row_user_email := "alice@example.com";
                  row_account_type := "FREEMIUM" |}];
  transh_model := sample_model
|}.

Definition sample_request (entity_input : py_value) : SimilarityRequest :=
  {| req_api_key := "k1"; req_entity_input := entity_input |}.

Definition sample_world (postgres_down : bool) : world := {|
  pwd_context_hash := λ password, "$2b$" +:+ password;
  token_hex := "00112233445566778899aabbccddeeff";
  mongo_find_raises := false;
  mongo_insert_raises := false;
  postgres_raises := postgres_down
|}.

Definition sample_registration : RegisterRequest :=
  {| email := "alice@example.com"; password := "secret1" |}.

Definition empty_databases : databases :=
  {| users := []; api_keys_table := [] |}.

(** ** Further vocabulary *)

(** How often a letter occurs in a string. *)
Fixpoint count_char (c : ascii) (s : string) : nat :=
  match s with
  | EmptyString => 0%nat
  | String c' s' => ((if Ascii.eqb c' c then 1 else 0) + count_char c s')%nat
  end.

(** A time claim that is absent or a number. *)
Definition claim_of (t : option Z) : claim :=
  match t with
  | Some v => ClaimInt v
  | None => ClaimAbsent
  end.

(** The time of the claim lies ahead of [now]. *)
Definition ahead (now : Z) (t : option Z) : bool :=
  match t with
  | Some v => now <? v
  | None => false
  end.

(** The texts of a column, the cells that are no strings left out. *)
Definition column_strings (column : list cell) : list string :=
  omap (λ x, match x with CellStr s => Some s | CellOther _ => None end) column.

(** Every cell of the column is a string. *)
Definition all_strings (column : list cell) : Prop :=
  Forall (λ x, ∃ s, x = CellStr s) column.

Section FurtherVocabulary.
Context `{Score score}.

(** A run of requests against one deployment: each with the time it
    arrives at, its [Authorization] header and its body; the answers are
    dropped, the store is threaded through. *)
Fixpoint serve_all (app : app_state score)
    (calls : list (Z * option string * SimilarityRequest)) (r : redis score)
    : redis score :=
  match calls with
  | [] => r
  | (now, authorization, req_data) :: calls' =>
      serve_all app calls' (similarity_service app now authorization req_data r).2
  end.

End FurtherVocabulary.

(** The two stores fit together: no email has two credentials, no email
    has two key records, and every key record belongs to an email that is
    on file. *)
Definition registry_consistent (db : databases) : Prop :=
  NoDup (doc_email <$> users db) ∧
  NoDup (row_user_email <$> api_keys_table db) ∧
  ∀ row, row ∈ api_keys_table db →
    is_Some (get_user_info db (row_user_email row)).

(** A stand-in for passlib and for the signing side of PyJWT that goes
    with [sample_world] and [sample_jwt]. *)
Definition sample_session_world : session_world := {|
  pwd_context_verify := λ secret hash, String.eqb hash ("$2b$" +:+ secret);
  getenv_SECRET_KEY := Some "secret";
  jwt_encode := λ _ _ _, "good"
|}.

(** A dataset of three heads, two of which pass the head filter. *)
Definition sample_heads : list cell :=
  [CellStr "http://ex.org/pronto.owl#space_site_1";
   CellStr "http://ex.org/other#thing";
   CellStr "http://ex.org/pronto.owl#space_site_2"].

Definition sample_head_factory : TriplesFactory := {|
  entity_to_id := {[ "http://ex.org/pronto.owl#space_site_1" := 0;
                     "http://ex.org/other#thing" := 1;
                     "http://ex.org/pronto.owl#space_site_2" := 2 ]};
  entity_id_to_label := {[ 0 := "http://ex.org/pronto.owl#space_site_1";
                           1 := "http://ex.org/other#thing";
                           2 := "http://ex.org/pronto.owl#space_site_2" ]}
|}.

(** * Properties *)

(** ** Strings and indexing *)

Example split_example : split " " "Bearer a.b.c" = ["Bearer"; "a.b.c"].
Proof. reflexivity. Qed.
Example split_once_example : split_once "#" "x#a_b#c" = ["x"; "a_b#c"].
Proof. reflexivity. Qed.
Example py_index_example : py_index [10; 20; 30] (-1) = Ok 30.
Proof. reflexivity. Qed.

Lemma list_ascii_of_string_app (s1 s2 : string) :
  list_ascii_of_string (s1 +:+ s2)
  = list_ascii_of_string s1 ++ list_ascii_of_string s2.
Proof.
  induction s1 as [|c s1 IH]; [reflexivity|].
  change (String c s1 +:+ s2) with (String c (s1 +:+ s2)).
  cbn [list_ascii_of_string]. rewrite IH. reflexivity.
Qed.

(** The letters of a string, last one first. *)
Definition letters_rev (s : string) : list ascii := rev (list_ascii_of_string s).

Lemma letters_rev_app (s1 s2 : string) :
  letters_rev (s1 +:+ s2) = letters_rev s2 ++ letters_rev s1.
Proof. unfold letters_rev. rewrite list_ascii_of_string_app. apply rev_app_distr. Qed.

Lemma py_index_elem_of {A} (l : list A) (i : Z) (x : A) :
  py_index l i = Ok x → x ∈ l.
Proof.
  unfold py_index. intros Hi.
  repeat case_match; simplify_eq; eapply list_elem_of_lookup_2; eassumption.
Qed.

Lemma py_index_nonneg {A} (l : list A) (i : Z) :
  0 ≤ i → py_index l i = match l !! Z.to_nat i with
                         | Some x => Ok x
                         | None => Raise IndexError
                         end.
Proof.
  intros Hi. unfold py_index.
  destruct (Z.leb_spec 0 i); [|lia]. cbn [andb].
  destruct (Z.ltb_spec i (Z.of_nat (length l))) as [Hlt|Hge]; [reflexivity|].
  rewrite (lookup_ge_None_2 l (Z.to_nat i)) by lia.
  destruct (Z.ltb_spec i 0); [lia|]. rewrite andb_false_r. reflexivity.
Qed.

Section RankerProperties.
Context `{Score score}.
Implicit Types (self : TransHModel score) (row : list (Z * score)).
Implicit Types (results : list (string * score)).

Lemma comprehension_elem_of {A B} (f : A → result B) (l : list A) (ys : list B) y :
  comprehension f l = Ok ys → y ∈ ys → ∃ x, x ∈ l ∧ f x = Ok y.
Proof.
  revert ys. induction l as [|x l IH]; intros ys; cbn.
  - intros [= <-] Hy. by apply elem_of_nil in Hy.
  - destruct (f x) as [y0|] eqn:Hfx; cbn; [|done].
    destruct (comprehension f l) as [ys0|]; cbn; [|done].
    intros [= <-] [->|Hy]%elem_of_cons.
    + exists x. split; [left|done].
    + destruct (IH ys0 eq_refl Hy) as (x' & ? & ?). exists x'. split; [by right|done].
Qed.

Lemma load_labels_total model (tf : TriplesFactory) df_head self :
  tables_agree tf → load model tf df_head = Ok self → labels_total self.
Proof.
  intros Htf. unfold load.
  destruct (filter_heads df_head) as [kept|]; cbn; [|done].
  destruct (comprehension _ kept) as [idx|] eqn:Hidx; cbn; [|done].
  intros [= <-] h Hh. cbn in *.
  destruct (comprehension_elem_of _ _ _ _ Hidx Hh) as (label & _ & Hget).
  unfold dict_get in Hget. destruct (entity_to_id tf !! label) eqn:E; [|done].
  simplify_eq. rewrite (Htf _ _ E). by eexists.
Qed.

Lemma _safe_resolve_elem_of self idx resolved_id :
  _safe_resolve self idx = Some resolved_id → resolved_id ∈ heads_idx self.
Proof.
  unfold _safe_resolve. destruct (py_index _ _) eqn:E; [|done].
  intros [= <-]. by eapply py_index_elem_of.
Qed.

(** *** The loops of [_extract_top_entities] *)

Lemma candidate_projection_cons self idx val row :
  candidate_projection self ((idx, val) :: row)
  = match _safe_resolve self idx with
    | Some resolved_id =>
        match entity_id_to_label (triples_factory self) !! resolved_id with
        | Some label => (label, val) :: candidate_projection self row
        | None => candidate_projection self row
        end
    | None => candidate_projection self row
    end.
Proof.
  unfold candidate_projection. cbn.
  destruct (_safe_resolve self idx) as [resolved_id|]; cbn; [|done].
  by destruct (entity_id_to_label (triples_factory self) !! resolved_id).
Qed.

(** The row loop collects the projection of the row until [results] holds
    [top_k] entries; since the bound is tested after an entry is appended,
    at least one entry is taken when the row has one. *)
Lemma extract_row_spec self top_k row results :
  labels_total self →
  let want := Z.to_nat (Z.max 1 (top_k - Z.of_nat (length results))) in
  extract_row self top_k row results
  = Ok (bool_decide (want ≤ length (candidate_projection self row))%nat,
        results ++ take want (candidate_projection self row)).
Proof.
  intros Hwf. revert results.
  induction row as [|[idx val] row IH]; intros results want.
  - cbn. rewrite take_nil, app_nil_r. rewrite bool_decide_false by (subst want; lia).
    reflexivity.
  - rewrite candidate_projection_cons. cbn [extract_row].
    destruct (_safe_resolve self idx) as [resolved_id|] eqn:Hres; [|apply IH].
    destruct (Hwf resolved_id) as [label Hlabel]; [by eapply _safe_resolve_elem_of|].
    unfold dict_get. rewrite Hlabel. cbn.
    rewrite length_app. cbn [length].
    destruct (Z.leb_spec top_k (Z.of_nat (length results + 1))) as [Hle|Hgt].
    + assert (want = 1%nat) as -> by (subst want; lia).
      rewrite bool_decide_true by lia. cbn. rewrite take_0. reflexivity.
    + rewrite IH. rewrite length_app. cbn [length].
      assert (want = S (Z.to_nat (Z.max 1
                (top_k - Z.of_nat (length results + 1))))) as -> by (subst want; lia).
      cbn [take]. rewrite <- app_assoc. cbn. do 2 f_equal.
      apply bool_decide_ext. lia.
Qed.

Lemma _extract_top_entities_spec self values indices top_k :
  labels_total self →
  _extract_top_entities self [values] [indices] top_k
  = Ok (take (Z.to_nat (Z.max 1 top_k))
          (candidate_projection self (zip indices values))).
Proof.
  intros Hwf. unfold _extract_top_entities. cbn.
  rewrite extract_row_spec by done. cbn.
  rewrite Z.sub_0_r. by case_bool_decide.
Qed.

(** *** The ranking *)

Lemma insert_asc_Forall (P : score * Z → Prop) x l :
  P x → Forall P l → Forall P (insert_asc x l).
Proof.
  intros Hx. induction 1 as [|y l Hy Hl IH]; cbn; [by repeat constructor|].
  destruct (score_leb x.1 y.1); repeat constructor; done.
Qed.

Lemma insert_asc_sorted x l :
  StronglySorted (λ a b, score_le a.1 b.1) l →
  StronglySorted (λ a b, score_le a.1 b.1) (insert_asc x l).
Proof.
  induction 1 as [|y l Hs IH Hy]; cbn; [by repeat constructor|].
  destruct (score_leb x.1 y.1) eqn:Hxy.
  - constructor; [by constructor|]. constructor; [done|].
    eapply Forall_impl; [exact Hy|]. intros z Hz. by eapply score_leb_trans.
  - constructor; [done|]. apply insert_asc_Forall; [|done].
    destruct (score_leb_total x.1 y.1); [congruence|done].
Qed.

Lemma insert_asc_length x l : length (insert_asc x l) = S (length l).
Proof. induction l as [|y l IH]; cbn; [done|]. destruct (score_leb _ _); cbn; lia. Qed.

Lemma foldr_insert_asc_sorted l :
  StronglySorted (λ a b, score_le a.1 b.1) (foldr insert_asc [] l).
Proof. induction l; cbn; [constructor|by apply insert_asc_sorted]. Qed.

Lemma foldr_insert_asc_length l : length (foldr insert_asc [] l) = length l.
Proof. induction l; cbn; [done|]. rewrite insert_asc_length. lia. Qed.

(** [topk_asc] pairs every score with one position: the two rows have the
    length of the input, and the scores ascend. *)
Lemma topk_asc_spec scores values indices :
  topk_asc scores = (values, indices) →
  ∃ sorted : list (score * Z),
    values = sorted.*1 ∧ indices = sorted.*2 ∧
    length sorted = length scores ∧
    StronglySorted (λ a b, score_le a.1 b.1) sorted.
Proof.
  unfold topk_asc. intros [= <- <-]. eexists. split_and!; [done|done| |].
  - rewrite foldr_insert_asc_length, length_zip, length_seqZ. lia.
  - apply foldr_insert_asc_sorted.
Qed.

Lemma candidate_projection_Forall self (P : score → Prop) row :
  Forall P (row.*2) → Forall P ((candidate_projection self row).*2).
Proof.
  induction row as [|[idx val] row IH]; [by constructor|].
  rewrite candidate_projection_cons. cbn. inversion_clear 1.
  repeat case_match; cbn; auto.
Qed.

Lemma candidate_projection_sorted self row :
  StronglySorted score_le (row.*2) →
  StronglySorted score_le ((candidate_projection self row).*2).
Proof.
  induction row as [|[idx val] row IH]; [by constructor|].
  rewrite candidate_projection_cons. cbn. inversion_clear 1.
  repeat case_match; cbn; auto.
  constructor; [auto|]. by apply candidate_projection_Forall.
Qed.

Lemma StronglySorted_take {A} (R : A → A → Prop) (l : list A) n :
  StronglySorted R l → StronglySorted R (take n l).
Proof.
  intros Hl. revert n. induction Hl as [|x l Hl IH Hx]; intros [|n]; cbn;
    try constructor; [apply IH|].
  apply Forall_take. done.
Qed.

Lemma StronglySorted_ascending (l : list score) :
  StronglySorted score_le l → ascending l.
Proof.
  induction 1 as [|x l Hl IH Hx]; intros i a b Ha Hb; [done|].
  destruct i as [|i]; cbn in *.
  - simplify_eq. rewrite Forall_forall in Hx. apply Hx.
    eapply list_elem_of_lookup_2. exact Hb.
  - eapply IH; eassumption.
Qed.

Lemma candidate_projection_length self indices (values : list score) :
  labels_total self → length indices = length values →
  length (candidate_projection self (zip indices values))
  = length (valid_positions self indices).
Proof.
  intros Hwf. revert values.
  induction indices as [|idx indices IH]; intros [|val values] Hlen; try done.
  change (zip (idx :: indices) (val :: values))
    with ((idx, val) :: zip indices values).
  rewrite candidate_projection_cons. unfold valid_positions. cbn [List.filter].
  destruct (_safe_resolve self idx) as [resolved_id|] eqn:Hres.
  - destruct (Hwf resolved_id) as [label ->]; [by eapply _safe_resolve_elem_of|].
    rewrite bool_decide_true by (by eexists). cbn. f_equal. apply IH. by simplify_eq/=.
  - rewrite bool_decide_false by (by intros [? ?]). apply IH. by simplify_eq/=.
Qed.

Lemma candidate_projection_heads self row label x :
  (label, x) ∈ candidate_projection self row →
  ∃ idx resolved_id,
    (idx, x) ∈ row ∧ _safe_resolve self idx = Some resolved_id ∧
    resolved_id ∈ heads_idx self ∧
    entity_id_to_label (triples_factory self) !! resolved_id = Some label.
Proof.
  induction row as [|[idx val] row IH]; [by intros ?%elem_of_nil|].
  rewrite candidate_projection_cons. intros Hin.
  assert (Hrest : (label, x) ∈ candidate_projection self row →
    ∃ idx0 resolved_id, (idx0, x) ∈ (idx, val) :: row ∧
      _safe_resolve self idx0 = Some resolved_id ∧ resolved_id ∈ heads_idx self ∧
      entity_id_to_label (triples_factory self) !! resolved_id = Some label).
  { intros (idx0 & r0 & ? & ? & ? & ?)%IH. exists idx0, r0. split_and!; try done.
    by right. }
  destruct (_safe_resolve self idx) as [resolved_id|] eqn:Hres; [|auto].
  destruct (entity_id_to_label _ !! resolved_id) as [label0|] eqn:Hl; [|auto].
  apply elem_of_cons in Hin as [[= -> ->]|Hin]; [|auto].
  exists idx, resolved_id. split_and!; try done; [left|by eapply _safe_resolve_elem_of].
Qed.

(** *** Validation *)

Lemma py_in_true (x : Z) (l : list Z) : x ∈ l → py_in x l = true.
Proof. intros. unfold py_in. by rewrite bool_decide_true. Qed.

Lemma py_in_false (x : Z) (l : list Z) : x ∉ l → py_in x l = false.
Proof. intros. unfold py_in. by rewrite bool_decide_false. Qed.

(** An exception signals one kind of failure only: the class tells a wrong
    type from the rest, the first letter of the message an identifier from
    a label, and its last letters an unknown label from a refused one. *)
Lemma signals_functional k1 k2 e : signals k1 e → signals k2 e → k1 = k2.
Proof.
  destruct 1; inversion 1; try reflexivity; exfalso;
    match goal with
    | Hmsg : _ = _ :> string |- _ =>
        apply (f_equal letters_rev) in Hmsg;
        rewrite !letters_rev_app in Hmsg; cbn in Hmsg; discriminate Hmsg
    end.
Qed.

(** C5, as amended. [_validate_input] classifies every input.  An integer
    of the candidate set is accepted and an integer outside it fails as
    EntityNotAllowed; a boolean is read as the integer 1 or 0 and fares as
    that integer does; a label the entity table does not know fails as
    UnknownEntityLabel, a known label is accepted when its identifier is a
    candidate and fails as EntityNotAllowed when it is not; a value of any
    other type fails as InvalidEntityInputType.  Every input is either
    accepted with a candidate or fails in one of these ways, and no
    exception stands for two kinds. *)
Theorem _validate_input_classifies self :
  (∀ n, n ∈ heads_idx self → _validate_input self (PyInt n) = Ok n) ∧
  (∀ n, n ∉ heads_idx self →
     ∃ e, _validate_input self (PyInt n) = Raise e ∧ signals EntityNotAllowed e) ∧
  (∀ b, Z.b2z b ∈ heads_idx self →
     _validate_input self (PyBool b) = Ok (Z.b2z b)) ∧
  (∀ b, Z.b2z b ∉ heads_idx self →
     ∃ e, _validate_input self (PyBool b) = Raise e ∧ signals EntityNotAllowed e) ∧
  (∀ s, entity_to_id (triples_factory self) !! s = None →
     ∃ e, _validate_input self (PyStr s) = Raise e ∧ signals UnknownEntityLabel e) ∧
  (∀ s e_id, entity_to_id (triples_factory self) !! s = Some e_id →
     e_id ∈ heads_idx self → _validate_input self (PyStr s) = Ok e_id) ∧
  (∀ s e_id, entity_to_id (triples_factory self) !! s = Some e_id →
     e_id ∉ heads_idx self →
     ∃ e, _validate_input self (PyStr s) = Raise e ∧ signals EntityNotAllowed e) ∧
  (∀ t, ∃ e, _validate_input self (PyOther t) = Raise e
             ∧ signals InvalidEntityInputType e) ∧
  (∀ entity_input,
     (∃ valid_id, _validate_input self entity_input = Ok valid_id
                  ∧ valid_id ∈ heads_idx self) ∨
     (∃ e kind, _validate_input self entity_input = Raise e ∧ signals kind e)) ∧
  (∀ k1 k2 e, signals k1 e → signals k2 e → k1 = k2).
Proof.
  assert (Hint : ∀ n, n ∈ heads_idx self → _validate_input self (PyInt n) = Ok n).
  { intros n Hn. cbn. by rewrite py_in_true. }
  assert (Hint' : ∀ n, n ∉ heads_idx self →
    ∃ e, _validate_input self (PyInt n) = Raise e ∧ signals EntityNotAllowed e).
  { intros n Hn. cbn. rewrite py_in_false by done.
    eexists. split; [done|constructor]. }
  assert (Hbool : ∀ b, Z.b2z b ∈ heads_idx self →
    _validate_input self (PyBool b) = Ok (Z.b2z b)).
  { intros b Hb. cbn. by rewrite py_in_true. }
  assert (Hbool' : ∀ b, Z.b2z b ∉ heads_idx self →
    ∃ e, _validate_input self (PyBool b) = Raise e ∧ signals EntityNotAllowed e).
  { intros b Hb. cbn. rewrite py_in_false by done.
    eexists. split; [done|constructor]. }
  assert (Hunknown : ∀ s, entity_to_id (triples_factory self) !! s = None →
    ∃ e, _validate_input self (PyStr s) = Raise e ∧ signals UnknownEntityLabel e).
  { intros s Hs. cbn. rewrite Hs. eexists. split; [done|constructor]. }
  assert (Hlabel : ∀ s e_id, entity_to_id (triples_factory self) !! s = Some e_id →
    e_id ∈ heads_idx self → _validate_input self (PyStr s) = Ok e_id).
  { intros s e_id Hs Hin. cbn. rewrite Hs. by rewrite py_in_true. }
  assert (Hlabel' : ∀ s e_id, entity_to_id (triples_factory self) !! s = Some e_id →
    e_id ∉ heads_idx self →
    ∃ e, _validate_input self (PyStr s) = Raise e ∧ signals EntityNotAllowed e).
  { intros s e_id Hs Hin. cbn. rewrite Hs. rewrite py_in_false by done.
    eexists. split; [done|constructor]. }
  assert (Hother : ∀ t, ∃ e, _validate_input self (PyOther t) = Raise e
                             ∧ signals InvalidEntityInputType e).
  { intros t. eexists. split; [done|constructor]. }
  split_and!; try done.
  - intros [n|b|s|t].
    + destruct (decide (n ∈ heads_idx self)) as [Hn|Hn].
      * left. exists n. auto.
      * right. destruct (Hint' n Hn) as (e & ? & ?). by exists e, EntityNotAllowed.
    + destruct (decide (Z.b2z b ∈ heads_idx self)) as [Hb|Hb].
      * left. exists (Z.b2z b). auto.
      * right. destruct (Hbool' b Hb) as (e & ? & ?). by exists e, EntityNotAllowed.
    + destruct (entity_to_id (triples_factory self) !! s) as [e_id|] eqn:Hs.
      * destruct (decide (e_id ∈ heads_idx self)) as [Hin|Hin].
        -- left. exists e_id. eauto.
        -- right. destruct (Hlabel' s e_id Hs Hin) as (e & ? & ?).
           by exists e, EntityNotAllowed.
      * right. destruct (Hunknown s Hs) as (e & ? & ?).
        by exists e, UnknownEntityLabel.
    + right. destruct (Hother t) as (e & ? & ?).
      by exists e, InvalidEntityInputType.
  - apply signals_functional.
Qed.

(** *** [predict_similarity] *)

(** A validated input is ranked: the result is the projection of the
    ascending ranking, cut after [max 1 top_k] entries. *)
Lemma predict_similarity_valid self entity_input relation_idx top_k valid_id :
  labels_total self →
  _validate_input self entity_input = Ok valid_id →
  ∃ sorted : list (score * Z),
    topk_asc (model_score_t self valid_id relation_idx) = (sorted.*1, sorted.*2) ∧
    StronglySorted (λ a b, score_le a.1 b.1) sorted ∧
    predict_similarity self entity_input relation_idx top_k
    = Ok (take (Z.to_nat (Z.max 1 top_k))
            (candidate_projection self (zip (sorted.*2) (sorted.*1)))).
Proof.
  intros Hwf Hvalid. unfold predict_similarity. rewrite Hvalid.
  destruct (topk_asc _) as [values indices] eqn:Htopk.
  destruct (topk_asc_spec _ _ _ Htopk) as (sorted & -> & -> & _ & Hsorted).
  exists sorted. split_and!; [done|done|]. by apply _extract_top_entities_spec.
Qed.

Lemma zip_snd_fst_scores (sorted : list (score * Z)) :
  (zip (sorted.*2) (sorted.*1)).*2 = sorted.*1.
Proof. induction sorted as [|[x i] l IH]; cbn; [done|]. by f_equal. Qed.

Lemma StronglySorted_fst (sorted : list (score * Z)) :
  StronglySorted (λ a b, score_le a.1 b.1) sorted →
  StronglySorted score_le (sorted.*1).
Proof.
  induction 1 as [|p l Hl IH Hp]; cbn; constructor; [done|].
  apply Forall_fmap. exact Hp.
Qed.

(** For a bound of at least one, a successful ranking has at most [top_k]
    entries, exactly [min top_k] of the number of ranked positions inside
    the candidate table, and its scores ascend. *)
Lemma predict_similarity_bounded_ascending
    self entity_input relation_idx top_k valid_id :
  labels_total self →
  _validate_input self entity_input = Ok valid_id →
  1 ≤ top_k →
  ∃ res,
    predict_similarity self entity_input relation_idx top_k = Ok res ∧
    Z.of_nat (length res) ≤ top_k ∧
    ascending (res.*2) ∧
    Z.of_nat (length res)
    = Z.min top_k (Z.of_nat (length (valid_positions self
        (topk_asc (model_score_t self valid_id relation_idx)).2))).
Proof.
  intros Hwf Hvalid Hk.
  destruct (predict_similarity_valid self entity_input relation_idx top_k
              valid_id Hwf Hvalid) as (sorted & Htopk & Hsorted & ->).
  eexists. split; [reflexivity|]. rewrite Htopk. cbn [snd].
  rewrite length_take, candidate_projection_length
    by (done || by rewrite !length_fmap).
  split_and!; [lia| |lia].
  rewrite fmap_take. apply StronglySorted_ascending, StronglySorted_take.
  apply candidate_projection_sorted. rewrite zip_snd_fst_scores.
  by apply StronglySorted_fst.
Qed.

(** C9. Every entry of a successful ranking carries the label of a
    candidate: it comes from a ranked position that lies inside the
    candidate table, and its label is that of the identifier found there,
    an element of [heads_idx]; positions outside the table yield no entry. *)
Theorem predict_similarity_within_candidates
    self entity_input relation_idx top_k valid_id :
  labels_total self →
  _validate_input self entity_input = Ok valid_id →
  ∃ res,
    predict_similarity self entity_input relation_idx top_k = Ok res ∧
    ∀ label x, (label, x) ∈ res →
      ∃ idx resolved_id,
        idx ∈ (topk_asc (model_score_t self valid_id relation_idx)).2 ∧
        _safe_resolve self idx = Some resolved_id ∧
        resolved_id ∈ heads_idx self ∧
        entity_id_to_label (triples_factory self) !! resolved_id = Some label.
Proof.
  intros Hwf Hvalid.
  destruct (predict_similarity_valid self entity_input relation_idx top_k
              valid_id Hwf Hvalid) as (sorted & Htopk & _ & ->).
  eexists. split; [reflexivity|]. intros label x Hin.
  apply (subseteq_take _ _) in Hin.
  destruct (candidate_projection_heads _ _ _ _ Hin)
    as (idx & resolved_id & Hrow & Hres & Hhead & Hlabel).
  exists idx, resolved_id. split_and!; try done.
  rewrite Htopk. cbn [snd].
  apply elem_of_zip_l in Hrow. exact Hrow.
Qed.

(** Whatever fails validation comes back as a one-entry result whose
    label is the message of the exception and whose score is -1.0. *)
Lemma predict_similarity_sentinel self entity_input relation_idx top_k e :
  _validate_input self entity_input = Raise e →
  ∃ msg, (e = ValueError msg ∨ e = TypeError msg) ∧
    predict_similarity self entity_input relation_idx top_k
    = Ok [(msg, score_minus_one)].
Proof.
  unfold predict_similarity. intros Hfail. rewrite Hfail.
  destruct entity_input as [n|b|s|t]; cbn in Hfail; repeat case_match;
    simplify_eq; eexists; (split; [by (left + right)|reflexivity]).
Qed.

End RankerProperties.

(** ** The rate limiter *)

Section RateLimiterProperties.
Context `{Score score}.
Implicit Types (r : redis score) (e : redis_entry score).

Lemma redis_lookup_insert_eq now key e r :
  redis_lookup now key (<[key := e]> r) = if entry_live now e then Some e else None.
Proof. unfold redis_lookup. by rewrite lookup_insert_eq. Qed.

Lemma redis_lookup_insert_ne now key key' e r :
  key ≠ key' → redis_lookup now key' (<[key := e]> r) = redis_lookup now key' r.
Proof. intros. unfold redis_lookup. by rewrite lookup_insert_ne. Qed.

Lemma rate_limit_of_tier account_type :
  rate_limit_of account_type
  = Ok (if decide (account_type = "PREMIUM") then 50 else 5).
Proof.
  unfold rate_limit_of.
  change (dict_get RATE_LIMITS "FREEMIUM") with (@Ok Z 5). cbn.
  unfold RATE_LIMITS. f_equal.
  destruct (decide (account_type = "PREMIUM")) as [->|Hp]; [reflexivity|].
  destruct (decide (account_type = "FREEMIUM")) as [->|Hf]; [reflexivity|].
  rewrite lookup_insert_ne by done. rewrite lookup_singleton_ne by done.
  reflexivity.
Qed.

Lemma same_minute_lt now t : t / 60 = now / 60 → t < now + 60.
Proof.
  intros Hw. pose proof (Z.div_mod t 60). pose proof (Z.div_mod now 60).
  pose proof (Z.mod_pos_bound t 60). pose proof (Z.mod_pos_bound now 60). lia.
Qed.


Lemma verdict_flip limit usage_count :
  (if limit <? usage_count
   then @raise score () (HTTPException 429 "Rate limit exceeded. Please try again later.")
   else mret ())
  = lift (verdict limit usage_count).
Proof.
  unfold verdict, lift, raise.
  destruct (Z.ltb_spec limit usage_count), (Z.leb_spec usage_count limit);
    try lia; reflexivity.
Qed.

Lemma redis_lookup_Some now key r e :
  redis_lookup now key r = Some e → r !! key = Some e ∧ entry_live now e = true.
Proof.
  unfold redis_lookup. destruct (r !! key) as [e'|]; [|done].
  destruct (entry_live now e') eqn:Hlive; [|done]. by intros [= ->].
Qed.

Lemma entry_live_deadline now t (v : redis_value score) :
  t / 60 = now / 60 →
  entry_live t {| entry_value := v; entry_expiry := Some (now + 60) |} = true.
Proof. intros Hw%same_minute_lt. unfold entry_live. cbn. by apply Z.ltb_lt. Qed.

(** One check: the counter moves from [count] to [count + 1], the verdict
    is that of [count + 1], and the counter stays readable for the rest of
    the minute. *)
Lemma _check_rate_limit_step now api_key account_type r count :
  let key := usage_key api_key (now / 60) in
  let limit := if decide (account_type = "PREMIUM") then 50 else 5 in
  counter_at now key r = Some count → count < INT64_MAX →
  ∃ r',
    _check_rate_limit now api_key account_type r = (verdict limit (count + 1), r') ∧
    (∀ t, t / 60 = now / 60 → counter_at t key r = Some count →
          counter_at t key r' = Some (count + 1)) ∧
    (∀ key', key' ≠ key → r' !! key' = r !! key').
Proof.
  intros key limit Hcount Hmax.
  unfold _check_rate_limit. fold key.
  unfold mbind, io_bind. rewrite rate_limit_of_tier. fold limit.
  unfold counter_at in Hcount. unfold redis_incr.
  destruct (redis_lookup now key r) as [e|] eqn:Hlook.
  - destruct (entry_value e) as [n|doc] eqn:Hval; [|done]. simplify_eq.
    destruct (Z.ltb_spec count INT64_MAX); [|lia].
    apply redis_lookup_Some in Hlook as [Hkey Hlive].
    destruct (Z.eqb_spec (count + 1) 1) as [Hone|Hone].
    + unfold redis_expire. rewrite redis_lookup_insert_eq.
      change (entry_live now {| entry_value := RedisInt (count + 1);
                                entry_expiry := entry_expiry e |})
        with (entry_live now e). rewrite Hlive. cbn [entry_value].
      rewrite insert_insert_eq. unfold lift at 1. rewrite verdict_flip.
      eexists. split; [reflexivity|]. split.
      * intros t Hw _. unfold counter_at. rewrite redis_lookup_insert_eq.
        by rewrite entry_live_deadline.
      * intros key' Hne. by rewrite lookup_insert_ne.
    + unfold mret at 1, io_ret. unfold lift at 1. rewrite verdict_flip.
      eexists. split; [reflexivity|]. split.
      * intros t Hw. unfold counter_at. rewrite redis_lookup_insert_eq.
        unfold redis_lookup. rewrite Hkey.
        change (entry_live t {| entry_value := RedisInt (count + 1);
                                entry_expiry := entry_expiry e |})
          with (entry_live t e).
        destruct (entry_live t e); [done|]. intros [= <-]. lia.
      * intros key' Hne. by rewrite lookup_insert_ne.
  - simplify_eq. cbn [Z.add Z.eqb Pos.eqb].
    unfold redis_expire. rewrite redis_lookup_insert_eq. cbn [entry_live entry_expiry].
    cbn [entry_value]. rewrite insert_insert_eq. unfold lift at 1.
    rewrite verdict_flip.
    eexists. split; [reflexivity|]. split.
    + intros t Hw _. unfold counter_at. rewrite redis_lookup_insert_eq.
      by rewrite entry_live_deadline.
    + intros key' Hne. by rewrite lookup_insert_ne.
Qed.

(** C1. Requests for one key inside one minute: when the counter under
    'usage:<apiKey>:<windowId>' stands at [count], the i-th request brings
    it to [count + i] and is admitted exactly when that does not exceed the
    limit of the tier (50 for PREMIUM, 5 for FREEMIUM and for any other
    tier); otherwise it fails with status 429.  From a fresh counter the
    first [limit] requests are admitted and the next one is refused. *)
Theorem _check_rate_limit_window api_key account_type w times r count :
  Forall (λ t, t / 60 = w) times →
  Forall (λ t, counter_at t (usage_key api_key w) r = Some count) times →
  count + Z.of_nat (length times) ≤ INT64_MAX →
  let limit := if decide (account_type = "PREMIUM") then 50 else 5 in
  usage_key api_key w = "usage:" +:+ api_key +:+ ":" +:+ pretty w ∧
  rate_limit_of account_type = Ok limit ∧
  (check_all times api_key account_type r).1
  = (λ i, if count + i <=? limit then Ok ()
          else Raise (HTTPException 429
                 "Rate limit exceeded. Please try again later."))
    <$> seqZ 1 (Z.of_nat (length times)).
Proof.
  intros Hw Hcount Hmax limit. split; [reflexivity|].
  split; [apply rate_limit_of_tier|].
  change (λ i, if count + i <=? limit then Ok ()
          else Raise (HTTPException 429
                 "Rate limit exceeded. Please try again later."))
    with (λ i, verdict limit (count + i)).
  revert r count Hcount Hmax.
  induction Hw as [|now times Hnow Hw IH]; intros r count Hcount Hmax; [done|].
  apply Forall_cons in Hcount as [Hfirst Hrest].
  cbn [length] in Hmax. subst w.
  destruct (_check_rate_limit_step now api_key account_type r count)
    as (r' & Hstep & Hkeep & _); [done|lia|].
  cbn [check_all]. rewrite Hstep.
  assert (Hnext : Forall (λ t, counter_at t (usage_key api_key (now / 60)) r'
                               = Some (count + 1)) times).
  { rewrite Forall_forall in Hw, Hrest |- *. intros t Ht. apply Hkeep; auto. }
  specialize (IH r' (count + 1) Hnext ltac:(lia)).
  destruct (check_all times api_key account_type r') as [outcomes r''].
  cbn [fst] in *. rewrite IH.
  cbn [length]. rewrite Nat2Z.inj_succ.
  rewrite (seqZ_cons 1 (Z.succ _)), Z.pred_succ by lia.
  cbn [fmap list_fmap]. f_equal.
  change (Z.succ 1) with (1 + 1). rewrite <- fmap_add_seqZ.
  rewrite <- list_fmap_compose. apply list_fmap_ext.
  intros _ i _. cbn. f_equal. lia.
Qed.

End RateLimiterProperties.

(** ** The result cache and the request handler *)

Section ServiceProperties.
Context `{Score score}.
Implicit Types (r : redis score) (e : redis_entry score) (doc : json score).
Implicit Types (app : app_state score) (resp : SimilarityResponse score).

Lemma io_bind_unfold {A B} (c : io score A) (k : A → io score B) r :
  (c ≫= k) r = match c r with
               | (Ok a, r') => k a r'
               | (Raise e, r') => (Raise e, r')
               end.
Proof. reflexivity. Qed.

Lemma cache_persistent_empty : cache_persistent (∅ : redis score).
Proof. intros key e doc Hkey. by rewrite lookup_empty in Hkey. Qed.

Lemma redis_lookup_cached now key r doc :
  r !! key = Some (cached_entry doc) →
  redis_lookup now key r = Some (cached_entry doc).
Proof. intros Hkey. unfold redis_lookup. by rewrite Hkey. Qed.

(** *** Documents survive the rate limiter *)

(** Writing a counter under a key that holds no live document leaves
    every cached document where it is. *)
Lemma counter_write_keeps_documents now key n (x : option Z) r :
  (∀ doc, redis_lookup now key r ≠ Some (cached_entry doc)) →
  let r1 := <[key := {| entry_value := RedisInt n; entry_expiry := x |}]> r in
  (∀ key0 doc, r !! key0 = Some (cached_entry doc) →
               r1 !! key0 = Some (cached_entry doc)) ∧
  (cache_persistent r → cache_persistent r1).
Proof.
  intros Hnodoc r1. subst r1. split.
  - intros key0 doc Hdoc. destruct (decide (key = key0)) as [<-|Hne].
    + destruct (Hnodoc doc). by apply redis_lookup_cached.
    + by rewrite lookup_insert_ne.
  - intros Hinv key0 e0 doc Hkey0 Hdoc.
    destruct (decide (key = key0)) as [<-|Hne].
    + rewrite lookup_insert_eq in Hkey0. by simplify_eq.
    + rewrite lookup_insert_ne in Hkey0 by done. eauto.
Qed.

(** The rate limiter either leaves the store alone or writes a counter
    under its own key, which held no live document. *)
Lemma _check_rate_limit_writes now api_key account_type r out r' :
  _check_rate_limit now api_key account_type r = (out, r') →
  let key := usage_key api_key (now / 60) in
  r' = r ∨
  ∃ n x, r' = <[key := {| entry_value := RedisInt n; entry_expiry := x |}]> r ∧
         ∀ doc, redis_lookup now key r ≠ Some (cached_entry doc).
Proof.
  unfold _check_rate_limit. set (key := usage_key api_key (now / 60)).
  rewrite io_bind_unfold. unfold redis_incr.
  destruct (redis_lookup now key r) as [e|] eqn:Hlook.
  - assert (Hnodoc : ∀ n, entry_value e = RedisInt n →
              ∀ doc, Some e ≠ Some (cached_entry doc)).
    { intros n Hn doc [= ->]. done. }
    apply redis_lookup_Some in Hlook as [Hkey Hlive].
    destruct (entry_value e) as [n|doc0] eqn:Hval;
      [|intros [= <- <-]; left; reflexivity].
    specialize (Hnodoc n eq_refl).
    destruct (n <? INT64_MAX); [|intros [= <- <-]; left; reflexivity].
    rewrite io_bind_unfold.
    destruct (n + 1 =? 1).
    + unfold redis_expire. rewrite redis_lookup_insert_eq.
      change (entry_live now {| entry_value := RedisInt (n + 1);
                                entry_expiry := entry_expiry e |})
        with (entry_live now e). rewrite Hlive. cbn [entry_value].
      rewrite insert_insert_eq. rewrite io_bind_unfold. unfold lift at 1.
      destruct (rate_limit_of account_type) as [limit|];
        [destruct (limit <? n + 1)|]; intros [= <- <-]; right; by eexists _, _.
    + unfold mret at 1, io_ret. rewrite io_bind_unfold. unfold lift at 1.
      destruct (rate_limit_of account_type) as [limit|];
        [destruct (limit <? n + 1)|]; intros [= <- <-]; right; by eexists _, _.
  - rewrite io_bind_unfold. cbn [Z.eqb Pos.eqb].
    unfold redis_expire. rewrite redis_lookup_insert_eq.
    cbn [entry_live entry_expiry entry_value]. rewrite insert_insert_eq.
    rewrite io_bind_unfold. unfold lift at 1.
    destruct (rate_limit_of account_type) as [limit|];
      [destruct (limit <? 1)|]; intros [= <- <-]; right; by eexists _, _.
Qed.

Lemma _check_rate_limit_store now api_key account_type r out r' :
  _check_rate_limit now api_key account_type r = (out, r') →
  (∀ key doc, r !! key = Some (cached_entry doc) →
              r' !! key = Some (cached_entry doc)) ∧
  (cache_persistent r → cache_persistent r').
Proof.
  intros Hrun.
  apply _check_rate_limit_writes in Hrun as [->|(n & x & -> & Hnodoc)]; [done|].
  by apply (counter_write_keeps_documents now).
Qed.

(** Keys other than its own are out of the rate limiter's reach. *)
Lemma _check_rate_limit_frame now api_key account_type r key' :
  key' ≠ usage_key api_key (now / 60) →
  (_check_rate_limit now api_key account_type r).2 !! key' = r !! key'.
Proof.
  intros Hne.
  destruct (_check_rate_limit now api_key account_type r) as [out r'] eqn:Hrun.
  apply _check_rate_limit_writes in Hrun as [->|(n & x & -> & _)]; [done|].
  cbn. by rewrite lookup_insert_ne.
Qed.

Lemma usage_key_inj api_key w1 w2 :
  usage_key api_key w1 = usage_key api_key w2 → w1 = w2.
Proof.
  unfold usage_key. intros Heq.
  do 3 apply (inj (String.app _)) in Heq. by apply (inj pretty) in Heq.
Qed.

Lemma check_all_frame times api_key account_type r key' :
  Forall (λ t, key' ≠ usage_key api_key (t / 60)) times →
  (check_all times api_key account_type r).2 !! key' = r !! key'.
Proof.
  intros Hne. revert r. induction Hne as [|now times Hnow _ IH]; intros r; [done|].
  cbn [check_all].
  pose proof (_check_rate_limit_frame now api_key account_type r key' Hnow) as Hr.
  destruct (_check_rate_limit now api_key account_type r) as [out r1].
  specialize (IH r1).
  destruct (check_all times api_key account_type r1) as [outs r2].
  cbn in *. congruence.
Qed.

(** Whatever was spent in one minute, the first request of another minute
    whose counter has not been started is admitted. *)
Lemma _check_rate_limit_next_minute api_key account_type w times r now :
  Forall (λ t, t / 60 = w) times →
  now / 60 ≠ w →
  counter_at now (usage_key api_key (now / 60)) r = Some 0 →
  (_check_rate_limit now api_key account_type
     (check_all times api_key account_type r).2).1 = Ok ().
Proof.
  intros Hw Hother Hfresh.
  set (r' := (check_all times api_key account_type r).2).
  assert (Hsame : r' !! usage_key api_key (now / 60)
                  = r !! usage_key api_key (now / 60)).
  { apply check_all_frame. eapply Forall_impl; [exact Hw|].
    intros t <- Heq%usage_key_inj. done. }
  assert (Hfresh' : counter_at now (usage_key api_key (now / 60)) r' = Some 0).
  { unfold counter_at, redis_lookup in *. by rewrite Hsame. }
  destruct (_check_rate_limit_step now api_key account_type r' 0 Hfresh')
    as (r'' & -> & _); [done|].
  cbn [fst]. unfold verdict. by destruct (decide (account_type = "PREMIUM")).
Qed.

(** *** The steps before the cache *)

Lemma validate_jwt_store app now authorization r out r' :
  validate_jwt app now authorization r = (out, r') → r' = r.
Proof.
  unfold validate_jwt, raise, lift. intros Hrun.
  repeat (rewrite io_bind_unfold in Hrun || case_match);
    unfold mret, io_ret in *; by simplify_eq.
Qed.

Lemma validate_api_key_store app api_key r out r' :
  validate_api_key app api_key r = (out, r') → r' = r.
Proof.
  unfold validate_api_key, raise, lift. intros Hrun.
  repeat (rewrite io_bind_unfold in Hrun || case_match);
    unfold mret, io_ret in *; by simplify_eq.
Qed.

Lemma admission_store app now authorization req_data r out r' :
  admission app now authorization req_data r = (out, r') →
  (∀ key doc, r !! key = Some (cached_entry doc) →
              r' !! key = Some (cached_entry doc)) ∧
  (cache_persistent r → cache_persistent r').
Proof.
  unfold admission. rewrite io_bind_unfold.
  destruct (validate_jwt app now authorization r) as [[[]|e] r1] eqn:Hjwt;
    apply validate_jwt_store in Hjwt as ->; [|by intros [= <- <-]].
  rewrite io_bind_unfold.
  destruct (validate_api_key app (req_api_key req_data) r)
    as [[row|e] r1] eqn:Hkey;
    apply validate_api_key_store in Hkey as ->; [|by intros [= <- <-]].
  apply _check_rate_limit_store.
Qed.

(** *** The cache *)

(** What [set_cached_results] writes is read back by the response model
    as the very list that was stored. *)
Lemma validate_pairs_json_dumps (results : list (string * score)) :
  validate_pairs ((λ p, JList [JStr p.1; JFloat p.2]) <$> results) = Ok results.
Proof.
  induction results as [|[label x] results IH]; [reflexivity|].
  cbn. rewrite IH. reflexivity.
Qed.

Lemma SimilarityResponse_of_json_dumps (results : list (string * score)) :
  SimilarityResponse_of
    {| cached_cache := true; cached_result := json_dumps results |}
  = Ok {| cache := true; result_list := results |}.
Proof.
  unfold SimilarityResponse_of, json_dumps. cbn.
  by rewrite validate_pairs_json_dumps.
Qed.

(** A cached document is served as it is, and the store is left alone. *)
Lemma serve_entity_hit app now entity_input key doc r :
  redis_key entity_input = Ok key →
  r !! key = Some (cached_entry doc) →
  serve_entity app now entity_input r
  = (SimilarityResponse_of {| cached_cache := true; cached_result := doc |}, r).
Proof.
  intros Hkey Hdoc. unfold serve_entity. rewrite io_bind_unfold.
  unfold reading, get_cached_results. rewrite Hkey. cbn.
  unfold redis_get. rewrite (redis_lookup_cached _ _ _ _ Hdoc). reflexivity.
Qed.

(** After a response, the cache holds a document for the input that reads
    back as the result of that response. *)
Lemma serve_entity_ok app now entity_input r resp r' :
  cache_persistent r →
  serve_entity app now entity_input r = (Ok resp, r') →
  ∃ key doc,
    redis_key entity_input = Ok key ∧
    r' !! key = Some (cached_entry doc) ∧
    SimilarityResponse_of {| cached_cache := true; cached_result := doc |}
    = Ok {| cache := true; result_list := result_list resp |}.
Proof.
  intros Hinv. unfold serve_entity. rewrite io_bind_unfold.
  unfold reading, get_cached_results.
  destruct (redis_key entity_input) as [key|] eqn:Hkey; [|done]. cbn.
  unfold redis_get.
  destruct (redis_lookup now key r) as [e|] eqn:Hlook; cbn.
  - apply redis_lookup_Some in Hlook as [He Hlive].
    unfold lift. intros [= Hresp <-].
    destruct e as [[n|doc] expiry]; [done|].
    pose proof (Hinv key _ doc He eq_refl) as Hexp. cbn in Hexp. subst expiry.
    exists key, doc. split_and!; [done|done|].
    cbn in Hresp. unfold SimilarityResponse_of in *. cbn in *.
    destruct doc as [| | |items]; try done.
    destruct (validate_pairs items); [|done]. cbn in *. by simplify_eq.
  - rewrite io_bind_unfold. unfold lift at 1.
    destruct (predict_similarity _ _ _ _) as [probability|]; [|done].
    rewrite io_bind_unfold. unfold set_cached_results. rewrite Hkey.
    intros [= <- <-]. exists key, (json_dumps probability).
    split_and!; [done| |apply SimilarityResponse_of_json_dumps].
    unfold redis_set. by rewrite lookup_insert_eq.
Qed.

Lemma serve_entity_store app now entity_input r out r' :
  serve_entity app now entity_input r = (out, r') →
  (∀ key doc, r !! key = Some (cached_entry doc) →
              r' !! key = Some (cached_entry doc)) ∧
  (cache_persistent r → cache_persistent r').
Proof.
  unfold serve_entity. rewrite io_bind_unfold.
  unfold reading, get_cached_results.
  destruct (redis_key entity_input) as [key|] eqn:Hkey; [|by intros [= <- <-]].
  cbn. unfold redis_get.
  destruct (redis_lookup now key r) as [e|] eqn:Hlook; cbn.
  - unfold lift. by intros [= <- <-].
  - rewrite io_bind_unfold. unfold lift at 1.
    destruct (predict_similarity _ _ _ _) as [probability|];
      [|by intros [= <- <-]].
    rewrite io_bind_unfold. unfold set_cached_results. rewrite Hkey.
    intros [= <- <-]. unfold redis_set. split.
    + intros key0 doc Hdoc. destruct (decide (key = key0)) as [<-|Hne].
      * by rewrite (redis_lookup_cached _ _ _ _ Hdoc) in Hlook.
      * by rewrite lookup_insert_ne.
    + intros Hinv key0 e0 doc Hkey0 Hdoc.
      destruct (decide (key = key0)) as [<-|Hne].
      * rewrite lookup_insert_eq in Hkey0. by simplify_eq.
      * rewrite lookup_insert_ne in Hkey0 by done. eauto.
Qed.

(** A cached document is never overwritten, and documents never acquire
    an expiry, whatever the request and its outcome. *)
Lemma similarity_service_store app now authorization req_data r out r' :
  similarity_service app now authorization req_data r = (out, r') →
  (∀ key doc, r !! key = Some (cached_entry doc) →
              r' !! key = Some (cached_entry doc)) ∧
  (cache_persistent r → cache_persistent r').
Proof.
  unfold similarity_service. rewrite io_bind_unfold.
  destruct (admission app now authorization req_data r) as [[[]|e] r1] eqn:Hadm;
    apply admission_store in Hadm as [Hdocs Hinv]; [|by intros [= <- <-]].
  intros [Hdocs' Hinv']%serve_entity_store. split; auto.
Qed.

(** C6. After a call that returned a response, a second call with the same
    entity input that gets past the token, API-key and rate-limit checks
    returns cache=true and the result sequence of the first response. *)
Theorem similarity_service_cache_roundtrip
    app now1 authorization1 req1 r0 resp1 r1 app2 now2 authorization2 req2 :
  cache_persistent r0 →
  similarity_service app now1 authorization1 req1 r0 = (Ok resp1, r1) →
  req_entity_input req2 = req_entity_input req1 →
  (admission app2 now2 authorization2 req2 r1).1 = Ok () →
  ∃ r2,
    similarity_service app2 now2 authorization2 req2 r1
    = (Ok {| cache := true; result_list := result_list resp1 |}, r2).
Proof.
  intros Hinv Hfirst Hsame Hadmit.
  unfold similarity_service in Hfirst. rewrite io_bind_unfold in Hfirst.
  destruct (admission app now1 authorization1 req1 r0) as [[[]|e] r0'] eqn:Hadm1;
    [|done].
  apply admission_store in Hadm1 as [_ Hinv0'].
  apply serve_entity_ok in Hfirst as (key & doc & Hkey & Hdoc & Hread); [|auto].
  unfold similarity_service. rewrite io_bind_unfold.
  destruct (admission app2 now2 authorization2 req2 r1) as [out r2] eqn:Hadm2.
  cbn in Hadmit. subst out.
  apply admission_store in Hadm2 as [Hdocs _].
  exists r2. rewrite Hsame.
  rewrite (serve_entity_hit _ _ _ key doc) by auto. by rewrite Hread.
Qed.

(** *** The bearer token *)

Lemma prefix_app (p s : string) :
  String.prefix p s = true → ∃ rest, s = p +:+ rest.
Proof.
  revert s. induction p as [|c p IH]; intros s; [by exists s|].
  destruct s as [|c' s]; cbn; [done|].
  destruct (ascii_dec c c') as [<-|]; [|done].
  intros [rest ->]%IH. by exists rest.
Qed.

Lemma split_nonempty (sep : ascii) (s : string) :
  ∃ piece pieces, split sep s = piece :: pieces.
Proof.
  induction s as [|c s (piece & pieces & IH)]; cbn; [by eexists _, _|].
  destruct (Ascii.eqb c sep); [by eexists _, _|].
  rewrite IH. by eexists _, _.
Qed.

(** The token of a header that starts with [Bearer ] is what lies between
    the first space and the next one. *)
Lemma bearer_token (rest : string) :
  ∃ token pieces,
    split " " rest = token :: pieces ∧
    py_index (split " " ("Bearer " +:+ rest)) 1 = Ok token.
Proof.
  destruct (split_nonempty " " rest) as (token & pieces & Hsplit).
  exists token, pieces. split; [done|].
  change ("Bearer " +:+ rest)
    with (String "B" (String "e" (String "a" (String "r" (String "e"
           (String "r" (String " " rest))))))).
  rewrite py_index_nonneg by lia. cbn. rewrite Hsplit. reflexivity.
Qed.

(** What the token step makes of the outcome of [jwt.decode]. *)
Lemma validate_jwt_bearer app now rest r :
  ∃ token pieces,
    split " " rest = token :: pieces ∧
    py_index (split " " ("Bearer " +:+ rest)) 1 = Ok token ∧
    validate_jwt app now (Some ("Bearer " +:+ rest)) r
    = (match jwt_decode (jwt app) token (SECRET_KEY app) ["HS256"] now with
       | Ok _ => Ok ()
       | Raise ExpiredSignatureError =>
           Raise (HTTPException 401 "JWT Token has expired.")
       | Raise e =>
           if is_InvalidTokenError e
           then Raise (HTTPException 401 "Invalid JWT Token.")
           else Raise e
       end, r).
Proof.
  destruct (bearer_token rest) as (token & pieces & Hsplit & Htoken).
  exists token, pieces. split_and!; [done|done|].
  unfold validate_jwt.
  change (("Bearer " +:+ rest =? "")%string) with false.
  assert (startswith "Bearer " ("Bearer " +:+ rest) = true) as ->.
  { unfold startswith. cbn. repeat (destruct (ascii_dec _ _); [|done]).
    by destruct rest. }
  cbn [negb orb]. rewrite io_bind_unfold, Htoken. unfold lift at 1.
  destruct (jwt_decode _ _ _ _ _) as [[]|e]; [done|].
  by destruct e; try destruct (is_InvalidTokenError _).
Qed.

(** A token step that does not pass ends the request with its exception
    and the store as it was. *)
Lemma similarity_service_token_refused app now authorization req_data r
    (err : exn) :
  validate_jwt app now authorization r = (Raise err, r) →
  similarity_service app now authorization req_data r = (Raise err, r).
Proof.
  intros Hjwt. unfold similarity_service, admission.
  by rewrite !io_bind_unfold, Hjwt.
Qed.

(** C8. With a process secret that PyJWT takes as an HMAC key, a bearer
    token whose signature does not verify under that secret is answered
    with 401 "Invalid JWT Token.", whatever expiry its payload claims and
    whatever the clock reads; nothing is written. *)
Theorem tampered_signature_rejected app now token_header req_data r key :
  startswith "Bearer " token_header = true →
  SECRET_KEY app = Some key →
  jwt_key_usable (jwt app) key = true →
  ∃ token,
    py_index (split " " token_header) 1 = Ok token ∧
    (jwt_signature_ok (jwt app) key token = false →
     similarity_service app now (Some token_header) req_data r
     = (Raise (HTTPException 401 "Invalid JWT Token."), r)).
Proof.
  intros [rest ->]%prefix_app Hsecret Hkey.
  destruct (validate_jwt_bearer app now rest r)
    as (token & pieces & _ & Htoken & Hjwt).
  exists token. split; [done|]. intros Hsig.
  apply similarity_service_token_refused. rewrite Hjwt. f_equal.
  unfold jwt_decode, jwt_prepare_key. rewrite Hsecret, Hkey. cbn.
  rewrite Hsig.
  destruct (jwt_parses (jwt app) token); [|done]. cbn.
  destruct (jwt_header_alg (jwt app) token) as [alg|]; [|done].
  by case_bool_decide.
Qed.

End ServiceProperties.

(** ** Registration *)

Section RegistrationProperties.
Implicit Types (w : world) (db : databases) (req_data : RegisterRequest).

Lemma find_app_first {A} (f : A → bool) (l k : list A) :
  List.find f (l ++ k)
  = match List.find f l with
    | Some x => Some x
    | None => List.find f k
    end.
Proof. induction l as [|x l IH]; [done|]. cbn. by destruct (f x). Qed.

Lemma get_user_info_app db db' email docs :
  users db' = users db ++ docs →
  get_user_info db' email
  = match get_user_info db email with
    | Some doc => Some doc
    | None => List.find (λ doc, String.eqb (doc_email doc) email) docs
    end.
Proof. unfold get_user_info. intros ->. apply find_app_first. Qed.

(** Registering an email that is on file fails with status 400 and writes
    nothing, whatever the world does. *)
Lemma register_user_duplicate w req_data db doc :
  get_user_info db (email req_data) = Some doc →
  register_user w req_data db
  = (Raise (HTTPException 400 "User already exists or error creating user."), db).
Proof.
  intros Hdoc. unfold register_user, create_user_in_db. rewrite Hdoc.
  by destruct (mongo_find_raises w).
Qed.

Lemma find_email_last email password :
  List.find (λ doc, String.eqb (doc_email doc) email)
    [{| doc_email := email; doc_password := password |}]
  = Some {| doc_email := email; doc_password := password |}.
Proof. cbn. by rewrite String.eqb_refl. Qed.

(** C7. Registering an email that is not on file, while both databases
    answer, succeeds: the response carries the key just drawn, and the
    credential and the key record are appended.  A second registration of
    the same email, whatever else it carries and whatever the world does,
    fails with status 400 and leaves both stores as the first call left
    them. *)
Theorem register_user_twice w1 w2 req1 req2 db :
  get_user_info db (email req1) = None →
  mongo_find_raises w1 = false →
  mongo_insert_raises w1 = false →
  postgres_raises w1 = false →
  email req2 = email req1 →
  let account_type :=
    if contains CONDITION (email req1) then "PREMIUM" else "FREEMIUM" in
  let credential := {| doc_email := email req1;
                       doc_password := pwd_context_hash w1 (password req1) |} in
  let key_record := {| row_api_key := token_hex w1;
                       row_user_email := email req1;
                       row_account_type := account_type |} in
  let db1 := {| users := users db ++ [credential];
                api_keys_table := api_keys_table db ++ [key_record] |} in
  (∃ resp, register_user w1 req1 db = (Ok resp, db1) ∧
           resp_api_key resp = Some (token_hex w1) ∧
           resp_account_type resp = Some account_type) ∧
  register_user w2 req2 db1
  = (Raise (HTTPException 400 "User already exists or error creating user."),
     db1).
Proof.
  intros Hnew Hfind Hinsert Hpg Hsame account_type credential key_record db1.
  split.
  - unfold register_user, create_user_in_db, insert_api_key_in_db.
    rewrite Hnew, Hfind, Hinsert, Hpg. cbn.
    eexists. split; [reflexivity|]. done.
  - apply (register_user_duplicate _ _ _ credential).
    rewrite Hsame. rewrite (get_user_info_app db db1 _ [credential]) by done.
    rewrite Hnew. apply find_email_last.
Qed.

(** What a failed key insertion leaves behind: the email is on file and
    no key record belongs to it.  No registration changes that. *)
Lemma register_user_keeps_orphan w req_data db email0 :
  is_Some (get_user_info db email0) →
  (∀ row, row ∈ api_keys_table db → row_user_email row ≠ email0) →
  let db' := (register_user w req_data db).2 in
  is_Some (get_user_info db' email0) ∧
  (∀ row, row ∈ api_keys_table db' → row_user_email row ≠ email0).
Proof.
  intros [doc Hdoc] Hnokey.
  destruct (decide (email req_data = email0)) as [Heq|Hne].
  - rewrite (register_user_duplicate _ _ _ doc) by (by rewrite Heq).
    cbn. eauto.
  - unfold register_user, create_user_in_db.
    destruct (mongo_find_raises w); [cbn; eauto|].
    destruct (get_user_info db (email req_data)); [cbn; eauto|].
    destruct (mongo_insert_raises w); [cbn; eauto|].
    unfold insert_api_key_in_db. cbn [negb].
    destruct (postgres_raises w); cbn.
    + split; [|done]. rewrite find_app_first. unfold get_user_info in Hdoc.
      rewrite Hdoc. eauto.
    + split.
      * rewrite find_app_first. unfold get_user_info in Hdoc.
        rewrite Hdoc. eauto.
      * intros row [Hrow|Hrow%list_elem_of_singleton]%elem_of_app; [eauto|].
        subst row. done.
Qed.

Lemma register_all_keeps_orphan calls db email0 :
  is_Some (get_user_info db email0) →
  (∀ row, row ∈ api_keys_table db → row_user_email row ≠ email0) →
  is_Some (get_user_info (register_all calls db) email0) ∧
  (∀ row, row ∈ api_keys_table (register_all calls db) →
          row_user_email row ≠ email0).
Proof.
  revert db. induction calls as [|[w req_data] calls IH]; intros db Hdoc Hnokey;
    [done|].
  cbn [register_all].
  destruct (register_user_keeps_orphan w req_data db email0 Hdoc Hnokey).
  by apply IH.
Qed.

(** C10. When the credential is stored and the insertion of the key record
    then fails, the helper returns the empty string, building the response
    raises, and no key is returned; the credential stays on file and no
    key record is written.  From then on, after any further registrations,
    every registration of that email fails with status 400 and the email
    still has no key record. *)
Theorem register_user_not_atomic w req_data db calls :
  get_user_info db (email req_data) = None →
  (∀ row, row ∈ api_keys_table db → row_user_email row ≠ email req_data) →
  mongo_find_raises w = false →
  mongo_insert_raises w = false →
  postgres_raises w = true →
  let credential := {| doc_email := email req_data;
                       doc_password := pwd_context_hash w (password req_data) |} in
  let db1 := {| users := users db ++ [credential];
                api_keys_table := api_keys_table db |} in
  let db2 := register_all calls db1 in
  (insert_api_key_in_db w (email req_data) db1).1 = ResponseStr "" ∧
  register_user w req_data db = (Raise IndexError, db1) ∧
  get_user_info db1 (email req_data) = Some credential ∧
  (∀ w' req', email req' = email req_data →
     register_user w' req' db2
     = (Raise (HTTPException 400 "User already exists or error creating user."),
        db2)) ∧
  (∀ row, row ∈ api_keys_table db2 → row_user_email row ≠ email req_data).
Proof.
  intros Hnew Hnokey Hfind Hinsert Hpg credential db1 db2.
  assert (Hfile : get_user_info db1 (email req_data) = Some credential).
  { rewrite (get_user_info_app db db1 _ [credential]) by done.
    rewrite Hnew. apply find_email_last. }
  destruct (register_all_keeps_orphan calls db1 (email req_data))
    as [[doc Hdoc] Hnokey2]; [by rewrite Hfile|done|].
  split_and!.
  - unfold insert_api_key_in_db. by rewrite Hpg.
  - unfold register_user, create_user_in_db, insert_api_key_in_db.
    by rewrite Hnew, Hfind, Hinsert, Hpg.
  - done.
  - intros w' req' Heq. apply (register_user_duplicate _ _ _ doc).
    by rewrite Heq.
  - done.
Qed.

End RegistrationProperties.

(** ** Worked requests *)

Lemma sample_model_labels_total : labels_total sample_model.
Proof.
  intros h Hh. cbn in Hh.
  apply elem_of_cons in Hh as [->|Hh]; [by eexists|].
  apply list_elem_of_singleton in Hh as ->. by eexists.
Qed.

(** C2. The identifier 7 is no candidate: [_validate_input] raises, but
    [predict_similarity] returns the message as the label of a one-entry
    result with score -1, and the handler answers as for a success. *)
Theorem predict_similarity_embeds_failure :
  _validate_input sample_model (PyInt 7)
  = Raise (ValueError "ID '7' not found in heads_idx.") ∧
  predict_similarity sample_model (PyInt 7) 5 10
  = Ok [("ID '7' not found in heads_idx.", -1)] ∧
  (similarity_service sample_app 10 (Some "Bearer good")
     (sample_request (PyInt 7)) ∅).1
  = Ok {| cache := false;
          result_list := [("ID '7' not found in heads_idx.", -1)] |}.
Proof. split_and!; vm_compute; reflexivity. Qed.

(** C3. The failed ranking of the identifier 7 leaves a document under the
    key of its input, and the next request for 7 is served from it. *)
Theorem failed_ranking_is_cached :
  let r1 := (similarity_service sample_app 10 (Some "Bearer good")
               (sample_request (PyInt 7)) ∅).2 in
  (∅ : redis Z) !! "7" = None ∧
  r1 !! "7"
  = Some (cached_entry
            (json_dumps [("ID '7' not found in heads_idx.", -1)])) ∧
  (similarity_service sample_app 20 (Some "Bearer good")
     (sample_request (PyInt 7)) r1).1
  = Ok {| cache := true;
          result_list := [("ID '7' not found in heads_idx.", -1)] |}.
Proof. split_and!; vm_compute; reflexivity. Qed.

(** C4. With a bound of 0 the ranking of the candidate 2 succeeds and has
    one entry. *)
Theorem predict_similarity_zero_bound :
  _validate_input sample_model (PyInt 2) = Ok 2 ∧
  predict_similarity sample_model (PyInt 2) 5 0 = Ok [("a", 10)].
Proof. split; vm_compute; reflexivity. Qed.

(** *** The rate limiter on the sample key *)

Example rate_limits :
  rate_limit_of "FREEMIUM" = Ok 5 ∧ rate_limit_of "PREMIUM" = Ok 50 ∧
  rate_limit_of "GOLD" = Ok 5.
Proof. by vm_compute. Qed.

Example usage_key_shape : usage_key "k1" 28433025 = "usage:k1:28433025".
Proof. by vm_compute. Qed.

Example next_minute_admitted :
  (_check_rate_limit 60 "k1" "FREEMIUM"
     (check_all [0; 10; 20; 30; 40; 59] "k1" "FREEMIUM" (∅ : redis Z)).2).1
  = Ok ().
Proof. by vm_compute. Qed.

(** *** The theorems at work *)

(** Six requests of a FREEMIUM key within minute 0, from a fresh counter:
    five are admitted, the sixth is refused. *)
Lemma _check_rate_limit_window_witness :
  (check_all [0; 10; 20; 30; 40; 59] "k1" "FREEMIUM" (∅ : redis Z)).1
  = [Ok (); Ok (); Ok (); Ok (); Ok ();
     Raise (HTTPException 429 "Rate limit exceeded. Please try again later.")].
Proof.
  destruct (_check_rate_limit_window "k1" "FREEMIUM" 0 [0; 10; 20; 30; 40; 59]
              (∅ : redis Z) 0) as (_ & _ & ->).
  - repeat constructor.
  - repeat constructor.
  - vm_compute. discriminate.
  - reflexivity.
Defined.

Lemma _validate_input_classifies_witness :
  _validate_input sample_model (PyStr "c") = Ok 2 ∧
  ∃ e, _validate_input sample_model (PyStr "b") = Raise e
       ∧ signals EntityNotAllowed e.
Proof.
  destruct (_validate_input_classifies sample_model)
    as (_ & _ & _ & _ & _ & Hvalid & Hrefused & _).
  split.
  - apply Hvalid; [reflexivity|]. vm_compute. left.
  - apply (Hrefused "b" 1); [reflexivity|]. vm_compute.
    intros Hin. repeat (apply elem_of_cons in Hin as [Hin|Hin]; [discriminate Hin|]).
    by apply elem_of_nil in Hin.
Defined.

(** The claim as stated fails on the booleans.  [False] is neither an
    integer nor a string to the caller, and it is accepted as the candidate
    0; [True] is refused, but as an identifier that is no candidate, not as
    a value of a wrong type. *)
Lemma _validate_input_bool_counterexample :
  _validate_input sample_model (PyBool false) = Ok 0 ∧
  _validate_input sample_model (PyBool true)
  = Raise (ValueError "ID 'True' not found in heads_idx.") ∧
  ¬ (∀ entity_input,
       (∀ n, entity_input ≠ PyInt n) → (∀ s, entity_input ≠ PyStr s) →
       ∃ e, _validate_input sample_model entity_input = Raise e
            ∧ signals InvalidEntityInputType e).
Proof.
  split_and!; [reflexivity|reflexivity|].
  intros Hclaim. destruct (Hclaim (PyBool false)) as (e & He & _); done.
Qed.

Lemma predict_similarity_within_candidates_witness :
  ∃ res,
    predict_similarity sample_model (PyInt 2) 5 10 = Ok res ∧
    ∀ label x, (label, x) ∈ res →
      ∃ idx resolved_id,
        idx ∈ (topk_asc (model_score_t sample_model 2 5)).2 ∧
        _safe_resolve sample_model idx = Some resolved_id ∧
        resolved_id ∈ heads_idx sample_model ∧
        entity_id_to_label (triples_factory sample_model) !! resolved_id
        = Some label.
Proof.
  apply predict_similarity_within_candidates.
  - exact sample_model_labels_total.
  - reflexivity.
Defined.

(** The candidate 2 is ranked, then served from the cache. *)
Lemma similarity_service_cache_roundtrip_witness :
  ∃ r2,
    similarity_service sample_app 70 (Some "Bearer good")
      (sample_request (PyInt 2))
      (similarity_service sample_app 10 (Some "Bearer good")
         (sample_request (PyInt 2)) ∅).2
    = (Ok {| cache := true; result_list := [("a", 10); ("c", 30)] |}, r2).
Proof.
  apply (similarity_service_cache_roundtrip sample_app 10 (Some "Bearer good")
           (sample_request (PyInt 2)) ∅
           {| cache := false; result_list := [("a", 10); ("c", 30)] |}).
  - apply cache_persistent_empty.
  - vm_compute. reflexivity.
  - reflexivity.
  - vm_compute. reflexivity.
Defined.

Lemma tampered_signature_rejected_witness :
  similarity_service sample_app 10 (Some "Bearer forged")
    (sample_request (PyInt 2)) ∅
  = (Raise (HTTPException 401 "Invalid JWT Token."), ∅).
Proof.
  destruct (tampered_signature_rejected sample_app 10 "Bearer forged"
              (sample_request (PyInt 2)) ∅ "secret" eq_refl eq_refl eq_refl)
    as (token & Htoken & Hreject).
  apply Hreject. vm_compute in Htoken. injection Htoken as <-. reflexivity.
Defined.

Lemma register_user_twice_witness :
  register_user (sample_world true)
    {| email := "alice@example.com"; password := "other" |}
    (register_user (sample_world false) sample_registration empty_databases).2
  = (Raise (HTTPException 400 "User already exists or error creating user."),
     (register_user (sample_world false) sample_registration empty_databases).2).
Proof.
  destruct (register_user_twice (sample_world false) (sample_world true)
              sample_registration
              {| email := "alice@example.com"; password := "other" |}
              empty_databases eq_refl eq_refl eq_refl eq_refl eq_refl)
    as [(resp & -> & _) Hsecond].
  exact Hsecond.
Defined.

Lemma register_user_not_atomic_witness :
  register_user (sample_world true) sample_registration empty_databases
  = (Raise IndexError,
     {| users := [{| doc_email := "alice@example.com";
                     doc_password := "$2b$secret1" |}];
        api_keys_table := [] |}).
Proof.
  destruct (register_user_not_atomic (sample_world true) sample_registration
              empty_databases [] eq_refl) as (_ & Hfirst & _).
  - intros row Hrow. by apply elem_of_nil in Hrow.
  - reflexivity.
  - reflexivity.
  - reflexivity.
  - exact Hfirst.
Defined.

(** * Further properties *)

(** ** The ranker, beyond the claims *)

Section RankerExtras.
Context `{Score score}.
Implicit Types (self : TransHModel score).

Lemma insert_asc_perm (x : score * Z) l : insert_asc x l ≡ₚ x :: l.
Proof.
  induction l as [|y l IH]; cbn; [done|].
  destruct (score_leb x.1 y.1); [done|]. rewrite IH. apply Permutation_swap.
Qed.

Lemma foldr_insert_asc_perm (l : list (score * Z)) : foldr insert_asc [] l ≡ₚ l.
Proof.
  induction l as [|x l IH]; cbn; [done|]. rewrite insert_asc_perm. by f_equiv.
Qed.

(** The positions [topk_asc] returns are those of the input row, each one
    once. *)
Lemma topk_asc_positions (scores : list score) :
  (topk_asc scores).2 ≡ₚ seqZ 0 (Z.of_nat (length scores)).
Proof.
  unfold topk_asc. cbn [snd]. rewrite foldr_insert_asc_perm.
  rewrite snd_zip; [done|]. rewrite length_seqZ. lia.
Qed.

Lemma filter_length_perm {A} (f : A → bool) (l k : list A) :
  l ≡ₚ k → length (List.filter f l) = length (List.filter f k).
Proof.
  induction 1 as [|x l k _ IH|x y l|l1 l2 l3 _ IH1 _ IH2]; cbn; [done| | |congruence].
  - destruct (f x); cbn; congruence.
  - destruct (f x), (f y); reflexivity.
Qed.

Lemma _safe_resolve_nonneg self (idx : Z) :
  0 ≤ idx →
  is_Some (_safe_resolve self idx) ↔ idx < Z.of_nat (length (heads_idx self)).
Proof.
  intros Hidx. unfold _safe_resolve. rewrite py_index_nonneg by done.
  destruct (heads_idx self !! Z.to_nat idx) as [h|] eqn:Hlook.
  - apply lookup_lt_Some in Hlook. split; [lia|by eexists].
  - apply lookup_ge_None in Hlook. split; [by intros [? ?]|lia].
Qed.

Lemma valid_positions_seqZ self (n : nat) :
  length (valid_positions self (seqZ 0 (Z.of_nat n)))
  = (n `min` length (heads_idx self))%nat.
Proof.
  induction n as [|n IH]; [done|].
  rewrite seqZ_S. unfold valid_positions in *. rewrite List.filter_app, length_app, IH.
  cbn [List.filter]. rewrite Z.add_0_l.
  case_bool_decide as Hn; rewrite _safe_resolve_nonneg in Hn by lia;
    cbn [length]; lia.
Qed.

(** X1. A validated input with a bound of at least one is ranked into
    exactly min(top_k, N, H) entries, N being the number of scores the model
    returns and H the size of the candidate table, and the scores of the
    entries ascend. *)
Theorem predict_similarity_count self entity_input relation_idx top_k valid_id :
  labels_total self →
  _validate_input self entity_input = Ok valid_id →
  1 ≤ top_k →
  ∃ res,
    predict_similarity self entity_input relation_idx top_k = Ok res ∧
    Z.of_nat (length res)
    = Z.min top_k
        (Z.min (Z.of_nat (length (model_score_t self valid_id relation_idx)))
               (Z.of_nat (length (heads_idx self)))) ∧
    ascending (res.*2).
Proof.
  intros Hwf Hvalid Hk.
  destruct (predict_similarity_bounded_ascending self entity_input relation_idx
              top_k valid_id Hwf Hvalid Hk) as (res & Hres & _ & Hasc & Hlen).
  exists res. split_and!; [done| |done].
  rewrite Hlen.
  pose proof (valid_positions_seqZ self
                (length (model_score_t self valid_id relation_idx))) as Hcount.
  unfold valid_positions in *.
  rewrite (filter_length_perm _ _ _ (topk_asc_positions _)), Hcount. lia.
Qed.

(** X2. On a model whose candidates all have labels, [predict_similarity]
    raises for no input at all: an input that fails validation comes back
    as a single pair, the message of the exception with the score -1.0. *)
Theorem predict_similarity_total self entity_input relation_idx top_k :
  labels_total self →
  ∃ res,
    predict_similarity self entity_input relation_idx top_k = Ok res ∧
    ∀ e, _validate_input self entity_input = Raise e →
      ∃ msg, (e = ValueError msg ∨ e = TypeError msg) ∧
             res = [(msg, score_minus_one)].
Proof.
  intros Hwf.
  destruct (_validate_input self entity_input) as [valid_id|e] eqn:Hvalid.
  - destruct (predict_similarity_valid self entity_input relation_idx top_k
                valid_id Hwf Hvalid) as (sorted & _ & _ & ->).
    eexists. split; [reflexivity|]. by intros e.
  - destruct (predict_similarity_sentinel self entity_input relation_idx top_k
                e Hvalid) as (msg & He & ->).
    eexists. split; [reflexivity|]. intros e' [= <-]. eauto.
Qed.

(** *** Batches *)

Lemma extract_rows_spec self top_k
    (rows : list (list Z * list score)) (results : list (string * score)) :
  labels_total self →
  Z.of_nat (length results) < Z.max 1 top_k →
  extract_rows self top_k rows results
  = Ok (results ++
        take (Z.to_nat (Z.max 1 top_k) - length results)
          (concat ((λ row, candidate_projection self (zip row.1 row.2)) <$> rows))).
Proof.
  intros Hwf. revert results.
  induction rows as [|[row_indices row_values] rows IH]; intros results Hlen.
  - cbn. by rewrite take_nil, app_nil_r.
  - cbn [extract_rows]. rewrite extract_row_spec by done.
    cbn -[candidate_projection take Z.max Z.to_nat].
    assert (Z.to_nat (Z.max 1 (top_k - Z.of_nat (length results)))
            = (Z.to_nat (Z.max 1 top_k) - length results)%nat) as -> by lia.
    case_bool_decide as Hfull.
    + by rewrite take_app_le.
    + apply Nat.nle_gt in Hfull.
      rewrite (take_ge (candidate_projection self (zip row_indices row_values)))
        by lia.
      rewrite IH by (rewrite length_app; lia).
      rewrite take_app_ge by lia. rewrite length_app, <- app_assoc.
      do 3 f_equal. f_equal. lia.
Qed.

(** X22. On a batch of ranked rows, [_extract_top_entities] returns the
    candidate-set projections of the rows, row after row, cut after
    max(1, top_k) entries; a row whose index and score rows differ in
    length is read as far as the shorter one goes. *)
Theorem _extract_top_entities_batch self
    (values : list (list score)) (indices : list (list Z)) top_k :
  labels_total self →
  _extract_top_entities self values indices top_k
  = Ok (take (Z.to_nat (Z.max 1 top_k))
          (concat ((λ row, candidate_projection self (zip row.1 row.2))
                   <$> zip indices values))).
Proof.
  intros Hwf. unfold _extract_top_entities.
  rewrite extract_rows_spec by (done || cbn; lia).
  cbn. by rewrite Nat.sub_0_r.
Qed.

(** *** [load] and its head filter *)

Lemma split_length (sep : ascii) (s : string) :
  length (split sep s) = S (count_char sep s).
Proof.
  induction s as [|c s IH]; [done|]. cbn.
  destruct (Ascii.eqb c sep); cbn; [by rewrite IH|].
  destruct (split sep s); cbn in *; lia.
Qed.

Lemma split_once_spec (sep : ascii) (s : string) :
  (count_char sep s = 0%nat ∧ split_once sep s = [s]) ∨
  (∃ before after,
     s = before +:+ String sep after ∧ count_char sep before = 0%nat ∧
     split_once sep s = [before; after]).
Proof.
  induction s as [|c s IH]; [by left|]. cbn.
  destruct (Ascii.eqb c sep) eqn:Hc.
  - apply Ascii.eqb_eq in Hc as ->. right. by exists "", s.
  - destruct IH as [[Hcount Hsplit]|(before & after & -> & Hcount & Hsplit)].
    + left. by rewrite Hsplit.
    + right. exists (String c before), after. rewrite Hsplit. cbn. by rewrite Hc.
Qed.

Lemma split_once_app (sep : ascii) (before after : string) :
  count_char sep before = 0%nat →
  split_once sep (before +:+ String sep after) = [before; after].
Proof.
  induction before as [|c before IH]; cbn.
  - intros _. change ("" +:+ String sep after) with (String sep after).
    cbn. by rewrite Ascii.eqb_refl.
  - change (String c before +:+ String sep after)
      with (String c (before +:+ String sep after)). cbn.
    destruct (Ascii.eqb c sep); [done|]. intros Hcount. by rewrite IH.
Qed.

(** X3. [_filter_head] accepts a head exactly when it contains
    [pronto.owl#space_site] and the part after its first [#] has exactly two
    underscores, that is, splits into three tokens. *)
Theorem _filter_head_spec (x : string) :
  _filter_head x = true ↔
  contains "pronto.owl#space_site" x = true ∧
  ∃ before after,
    x = before +:+ String "#" after ∧
    count_char "#" before = 0%nat ∧ count_char "_" after = 2%nat.
Proof.
  unfold _filter_head. split.
  - destruct (contains "pronto.owl#space_site" x); [|done]. cbn [negb].
    destruct (split_once_spec "#" x)
      as [[_ ->]|(before & after & Hx & Hcount & ->)]; [done|].
    cbn. rewrite split_length. intros Hlen%Z.eqb_eq.
    split; [done|]. exists before, after. split_and!; [done|done|lia].
  - intros [-> (before & after & -> & Hbefore & Hafter)]. cbn [negb].
    rewrite split_once_app by done. cbn. rewrite split_length, Hafter. done.
Qed.

Lemma comprehension_Ok {A B} (f : A → result B) (l : list A) (ys : list B) :
  comprehension f l = Ok ys → Forall2 (λ x y, f x = Ok y) l ys.
Proof.
  revert ys. induction l as [|x l IH]; intros ys; cbn.
  - intros [= <-]. constructor.
  - destruct (f x) as [y|] eqn:Hfx; cbn; [|done].
    destruct (comprehension f l) as [ys0|]; cbn; [|done].
    intros [= <-]. constructor; auto.
Qed.

Lemma comprehension_Raise {A B} (f : A → result B) (l : list A) e :
  comprehension f l = Raise e → ∃ x, x ∈ l ∧ f x = Raise e.
Proof.
  induction l as [|x l IH]; cbn; [done|].
  destruct (f x) as [y|e'] eqn:Hfx; cbn.
  - destruct (comprehension f l) as [ys0|e'']; cbn; [done|].
    intros [= <-]. destruct IH as (x' & ? & ?); [done|].
    exists x'. split; [by right|done].
  - intros [= <-]. exists x. split; [left|done].
Qed.

Lemma filter_heads_Ok (column : list cell) kept :
  filter_heads column = Ok kept →
  all_strings column ∧
  kept = List.filter _filter_head (column_strings column).
Proof.
  revert kept. induction column as [|[x|type_name] column IH]; intros kept; cbn.
  - intros [= <-]. split; [constructor|done].
  - destruct (filter_heads column) as [kept0|]; cbn; [|done].
    destruct (IH kept0 eq_refl) as [Hall ->]. intros [= <-].
    split; [constructor; eauto|]. by destruct (_filter_head x).
  - done.
Qed.

Lemma filter_heads_Raise (column : list cell) e :
  filter_heads column = Raise e →
  ∃ type_name,
    CellOther type_name ∈ column ∧
    e = TypeError ("argument of type '" +:+ type_name +:+ "' is not iterable").
Proof.
  induction column as [|[x|type_name] column IH]; cbn; [done| |].
  - destruct (filter_heads column) as [kept0|e0]; cbn; [done|].
    intros [= <-]. destruct IH as (type_name & Hin & ->); [done|].
    exists type_name. split; [by right|done].
  - intros [= <-]. exists type_name. split; [left|done].
Qed.

Lemma elem_of_column_strings (column : list cell) s :
  s ∈ column_strings column ↔ CellStr s ∈ column.
Proof.
  unfold column_strings. rewrite list_elem_of_omap. split.
  - intros ([x|t] & Hin & Hx); [|done]. by injection Hx as ->.
  - intros Hin. by exists (CellStr s).
Qed.

(** X4. On a dataset with at least one row, [load] fails with [TypeError]
    exactly when the head column has a cell that is no string.  On a
    column of strings it keeps the heads that pass the filter, in their
    order, and pairs each with its identifier; it then fails, with
    [KeyError], exactly on a filtered head that the entity table does not
    know.  With index tables that agree, every candidate identifier
    belongs to an entity whose label is in the column and passes the
    filter. *)
Theorem load_candidates (model : Z → Z → list score) tf df_head :
  df_head ≠ [] →
  match load model tf df_head with
  | Ok self =>
      all_strings df_head ∧
      heads self = List.filter _filter_head (column_strings df_head) ∧
      Forall2 (λ h i, entity_to_id tf !! h = Some i) (heads self) (heads_idx self) ∧
      (tables_agree tf →
       ∀ i, i ∈ heads_idx self →
         ∃ label, entity_id_to_label (triples_factory self) !! i = Some label ∧
                  CellStr label ∈ df_head ∧ _filter_head label = true)
  | Raise e =>
      (∃ type_name msg, CellOther type_name ∈ df_head ∧ e = TypeError msg) ∨
      (all_strings df_head ∧ e = KeyError ∧
       ∃ h, CellStr h ∈ df_head ∧ _filter_head h = true ∧
            entity_to_id tf !! h = None)
  end.
Proof.
  intros _. unfold load.
  destruct (filter_heads df_head) as [kept|e] eqn:Hkept; cbn.
  2:{ left. apply filter_heads_Raise in Hkept as (type_name & Hin & ->).
      by eexists _, _. }
  apply filter_heads_Ok in Hkept as [Hall ->].
  destruct (comprehension _ _) as [idx|e] eqn:Hidx; cbn.
  - split; [done|]. split; [done|]. split.
    + apply comprehension_Ok in Hidx. eapply Forall2_impl; [exact Hidx|].
      intros h i. unfold dict_get. by destruct (entity_to_id tf !! h); intros [=]; subst.
    + intros Htf i Hi.
      destruct (comprehension_elem_of _ _ _ _ Hidx Hi) as (label & Hlabel & Hget).
      unfold dict_get in Hget.
      destruct (entity_to_id tf !! label) as [i'|] eqn:Hid; [|done].
      injection Hget as ->. exists label.
      apply list_elem_of_In, filter_In in Hlabel as [Hin Hfilter].
      split_and!; [by apply Htf| |done].
      by apply elem_of_column_strings, list_elem_of_In.
  - right. split; [done|].
    apply comprehension_Raise in Hidx as (h & Hh & Hget).
    unfold dict_get in Hget.
    destruct (entity_to_id tf !! h) eqn:Hid; [done|]. injection Hget as <-.
    split; [done|]. exists h.
    apply list_elem_of_In, filter_In in Hh as [Hin Hfilter].
    split_and!; [|done|done].
    by apply elem_of_column_strings, list_elem_of_In.
Qed.

End RankerExtras.

(** ** The request handler, beyond the claims *)

Section ServiceExtras.
Context `{Score score}.
Implicit Types (r : redis score) (doc : json score).
Implicit Types (app : app_state score) (resp : SimilarityResponse score).

(** *** What each step can answer *)

Ltac in_details :=
  repeat match goal with
         | Hin : _ ∈ _ |- _ => rewrite ?elem_of_cons, ?elem_of_nil in Hin
         end;
  rewrite ?elem_of_cons, ?elem_of_nil; tauto.

(** [jwt.decode] ends in a token error, or in what the preparation of
    the key or the conversion of a claim lets through. *)
Lemma jwt_decode_raises (lib : JwtBackend) token key algorithms now (err : exn) :
  jwt_decode lib token key algorithms now = Raise err →
  is_InvalidTokenError err = true ∨ err = InvalidKeyError ∨
  ∃ msg, err = TypeError msg.
Proof.
  unfold jwt_decode, jwt_prepare_key, jwt_validate_claims,
    jwt_validate_iat, jwt_validate_nbf, jwt_validate_exp.
  intros Hraise.
  repeat (case_match; simplify_eq/=); eauto.
Qed.

Lemma validate_jwt_outcomes app now authorization r :
  ∃ out, validate_jwt app now authorization r = (out, r) ∧
    (out = Ok () ∨
     (∃ detail, out = Raise (HTTPException 401 detail) ∧
        detail ∈ ["JWT Token not provided."; "JWT Token has expired.";
                  "Invalid JWT Token."]) ∨
     out = Raise InvalidKeyError ∨ ∃ msg, out = Raise (TypeError msg)).
Proof.
  destruct authorization as [token_header|].
  2:{ eexists. split; [done|]. right. left. eexists. split; [done|]. in_details. }
  destruct (String.eqb token_header "" || negb (startswith "Bearer " token_header))
    eqn:Hprefix.
  { unfold validate_jwt, raise. rewrite Hprefix.
    eexists. split; [done|]. right. left. eexists. split; [done|]. in_details. }
  apply orb_false_elim in Hprefix as [_ Hprefix%negb_false_iff].
  apply prefix_app in Hprefix as [rest ->].
  destruct (validate_jwt_bearer app now rest r)
    as (token & pieces & _ & _ & ->).
  eexists. split; [done|].
  destruct (jwt_decode _ _ _ _ _) as [[]|err] eqn:Hdecode; [by left|].
  apply jwt_decode_raises in Hdecode as [Htoken|[->|[msg ->]]].
  - right. left.
    destruct err; try discriminate Htoken; cbn;
      eexists; (split; [done|in_details]).
  - cbn. auto.
  - cbn. eauto.
Qed.

Lemma get_api_key_info_Some (pg : Postgres) (rows : list api_key_row)
    api_key row :
  get_api_key_info pg rows api_key = Ok (Some row) →
  row ∈ rows ∧ sql_eq pg (row_api_key row) api_key = true.
Proof.
  unfold get_api_key_info. destruct (select_raises pg); [done|].
  intros [= Hrow%list_elem_of_lookup_2].
  apply list_elem_of_In, filter_In in Hrow as [Hin Heq].
  split; [by apply list_elem_of_In|done].
Qed.

(** A query that finds one row hands back that row. *)
Lemma get_api_key_info_only (pg : Postgres) (rows : list api_key_row)
    api_key row :
  select_raises pg = false →
  List.filter (λ row0, sql_eq pg (row_api_key row0) api_key) rows = [row] →
  get_api_key_info pg rows api_key = Ok (Some row).
Proof.
  unfold get_api_key_info. intros -> ->. cbn [length].
  by rewrite Nat.mod_1_r.
Qed.

(** A query hands back a row whenever some row answers it. *)
Lemma get_api_key_info_is_Some (pg : Postgres) (rows : list api_key_row)
    api_key row :
  select_raises pg = false →
  row ∈ rows → sql_eq pg (row_api_key row) api_key = true →
  ∃ found, get_api_key_info pg rows api_key = Ok (Some found).
Proof.
  intros Hup Hin Heq. unfold get_api_key_info. rewrite Hup.
  set (found := List.filter _ rows).
  assert (Hfound : row ∈ found).
  { apply list_elem_of_In, filter_In. split; [by apply list_elem_of_In|done]. }
  destruct (lookup_lt_is_Some_2 found
              (fetch_first pg found `mod` length found)%nat) as [row0 ->];
    [|by exists row0].
  apply Nat.mod_upper_bound.
  destruct found; [by apply elem_of_nil in Hfound|done].
Qed.

Lemma validate_api_key_outcomes app api_key r :
  ∃ out, validate_api_key app api_key r = (out, r) ∧
    ((∃ row, out = Ok row ∧ row ∈ api_keys app ∧ row_api_key row = api_key) ∨
     (∃ detail, out = Raise (HTTPException 401 detail) ∧
        detail ∈ ["API Key not provided."; "Invalid API Key."]) ∨
     out = Raise OperationalError).
Proof.
  unfold validate_api_key, raise, lift.
  destruct (String.eqb api_key "").
  { eexists. split; [done|]. right. left. eexists. split; [done|]. in_details. }
  rewrite io_bind_unfold.
  destruct (get_api_key_info _ _ _) as [[row|]|err] eqn:Hfind.
  - apply get_api_key_info_Some in Hfind as [Hin _].
    destruct (String.eqb_spec (row_api_key row) api_key) as [Heq|Hne]; cbn.
    + eexists. split; [done|]. left. by exists row.
    + eexists. split; [done|]. right. left. eexists. split; [done|]. in_details.
  - eexists. split; [done|]. right. left. eexists. split; [done|]. in_details.
  - unfold get_api_key_info in Hfind.
    destruct (select_raises (postgres app)); [|done]. injection Hfind as <-.
    eexists. split; [done|]. by right; right.
Qed.

Lemma _check_rate_limit_outcomes now api_key account_type r :
  let out := (_check_rate_limit now api_key account_type r).1 in
  out = Ok () ∨
  out = Raise (HTTPException 429 "Rate limit exceeded. Please try again later.") ∨
  out = Raise ResponseError.
Proof.
  unfold _check_rate_limit. rewrite io_bind_unfold.
  unfold redis_incr.
  destruct (redis_lookup _ _ r) as [e|]; [destruct (entry_value e) as [n|]|].
  - destruct (n <? INT64_MAX); [|cbn; auto].
    rewrite io_bind_unfold.
    destruct (n + 1 =? 1); cbn; rewrite io_bind_unfold, rate_limit_of_tier;
      unfold lift; cbn; destruct (_ <? n + 1); cbn; auto.
  - cbn. auto.
  - rewrite io_bind_unfold. cbn [Z.eqb Pos.eqb]. rewrite io_bind_unfold.
    rewrite rate_limit_of_tier. unfold lift. cbn. destruct (_ <? 1); cbn; auto.
Qed.

Lemma extract_row_raises (self : TransHModel score) top_k row results e :
  extract_row self top_k row results = Raise e → e = KeyError.
Proof.
  revert results. induction row as [|[idx val] row IH]; intros results; [done|].
  cbn. destruct (_safe_resolve self idx) as [resolved_id|]; [|apply IH].
  unfold dict_get. destruct (entity_id_to_label _ !! resolved_id); cbn.
  - destruct (top_k <=? _); [done|apply IH].
  - by intros [= <-].
Qed.

Lemma predict_similarity_raises (self : TransHModel score) entity_input
    relation_idx top_k e :
  predict_similarity self entity_input relation_idx top_k = Raise e → e = KeyError.
Proof.
  unfold predict_similarity.
  destruct (_validate_input self entity_input) as [valid_id|e'] eqn:Hvalid.
  - destruct (topk_asc _) as [values indices].
    unfold _extract_top_entities. cbn.
    destruct (extract_row _ _ _ _) as [[returned results]|e'] eqn:Hrow; cbn.
    + by destruct returned.
    + apply extract_row_raises in Hrow as ->. by intros [= <-].
  - destruct (predict_similarity_sentinel self entity_input relation_idx top_k
                e' Hvalid) as (msg & [-> | ->] & _); done.
Qed.

(** The cache step writes at most one document, under the key of the
    input, and only when nothing live was there. *)
Lemma serve_entity_writes app now entity_input r out r' :
  serve_entity app now entity_input r = (out, r') →
  r' = r ∨
  ∃ key doc, redis_key entity_input = Ok key ∧
             redis_lookup now key r = None ∧ r' = <[key := cached_entry doc]> r.
Proof.
  unfold serve_entity. rewrite io_bind_unfold.
  unfold reading, get_cached_results.
  destruct (redis_key entity_input) as [key|] eqn:Hkey;
    [|intros [= <- <-]; by left].
  cbn. unfold redis_get.
  destruct (redis_lookup now key r) as [e|] eqn:Hlook; cbn.
  - unfold lift. intros [= <- <-]. by left.
  - rewrite io_bind_unfold. unfold lift at 1.
    destruct (predict_similarity _ _ _ _) as [probability|];
      [|intros [= <- <-]; by left].
    rewrite io_bind_unfold. unfold set_cached_results. rewrite Hkey.
    intros [= <- <-]. right. by exists key, (json_dumps probability).
Qed.

Lemma serve_entity_raises app now entity_input r e r' :
  serve_entity app now entity_input r = (Raise e, r') →
  e = DataError ∨ e = ValidationError ∨ e = KeyError.
Proof.
  unfold serve_entity. rewrite io_bind_unfold.
  unfold reading, get_cached_results.
  destruct (redis_key entity_input) as [key|] eqn:Hkey.
  2:{ destruct entity_input; cbn in Hkey; simplify_eq; intros [= <- <-]; auto. }
  cbn. unfold redis_get.
  destruct (redis_lookup now key r) as [e0|]; cbn.
  - unfold lift, SimilarityResponse_of. cbn.
    destruct (json_loads (entry_value e0)) as [| | |items];
      try (intros [= <- <-]; auto).
    destruct (validate_pairs items) as [pairs|e1] eqn:Hpairs; cbn; [done|].
    intros [= <- <-].
    assert (∀ (items0 : list (json score)) e2,
              validate_pairs items0 = Raise e2 → e2 = ValidationError) as Hval.
    { clear. induction items0 as [|item items0 IH]; intros e2; cbn; [done|].
      repeat case_match; try (by intros [= <-]).
      destruct (validate_pairs items0); cbn; [done|]. intros [= <-]. eauto. }
    right. left. by eapply Hval.
  - rewrite io_bind_unfold. unfold lift at 1.
    destruct (predict_similarity _ _ _ _) as [probability|e1] eqn:Hpred.
    + rewrite io_bind_unfold. unfold set_cached_results. by rewrite Hkey.
    + apply predict_similarity_raises in Hpred as ->. intros [= <- <-]. auto.
Qed.

(** After a check the counter is a live entry that holds one more. *)
Lemma _check_rate_limit_entry now api_key account_type r count :
  let key := usage_key api_key (now / 60) in
  counter_at now key r = Some count → count < INT64_MAX →
  ∃ x, redis_lookup now key (_check_rate_limit now api_key account_type r).2
       = Some {| entry_value := RedisInt (count + 1); entry_expiry := x |}.
Proof.
  intros key Hcount Hmax.
  unfold _check_rate_limit. fold key. rewrite io_bind_unfold.
  unfold counter_at in Hcount. unfold redis_incr.
  destruct (redis_lookup now key r) as [e|] eqn:Hlook.
  - destruct (entry_value e) as [n|doc] eqn:Hval; [|done]. simplify_eq.
    destruct (Z.ltb_spec count INT64_MAX); [|lia].
    apply redis_lookup_Some in Hlook as [Hkey Hlive].
    rewrite io_bind_unfold.
    destruct (count + 1 =? 1).
    + unfold redis_expire. rewrite redis_lookup_insert_eq.
      change (entry_live now {| entry_value := RedisInt (count + 1);
                                entry_expiry := entry_expiry e |})
        with (entry_live now e). rewrite Hlive. cbn [entry_value].
      rewrite insert_insert_eq, io_bind_unfold, rate_limit_of_tier.
      unfold lift. eexists.
      destruct (_ <? count + 1); cbn; rewrite redis_lookup_insert_eq;
        by rewrite (entry_live_deadline now now).
    + unfold mret at 1, io_ret. rewrite io_bind_unfold, rate_limit_of_tier.
      unfold lift. eexists.
      destruct (_ <? count + 1); cbn; rewrite redis_lookup_insert_eq;
        change (entry_live now {| entry_value := RedisInt (count + 1);
                                  entry_expiry := entry_expiry e |})
          with (entry_live now e); by rewrite Hlive.
  - simplify_eq. rewrite io_bind_unfold. cbn [Z.add Z.eqb Pos.eqb].
    unfold redis_expire. rewrite redis_lookup_insert_eq.
    cbn [entry_live entry_expiry entry_value].
    rewrite insert_insert_eq, io_bind_unfold, rate_limit_of_tier.
    unfold lift. eexists.
    destruct (_ <? 1); cbn; rewrite redis_lookup_insert_eq;
      by rewrite (entry_live_deadline now now).
Qed.

(** X5. A request is answered 401 exactly when its token step or, after
    it, its API-key step answers so; the answer then carries one of five
    details and the store is left as it was: no counter moves, nothing is
    cached.  The two steps can also end in an exception the handler does
    not catch, and the request then ends with it, the store being left as
    it was: [InvalidKeyError] or [TypeError] from the token step, an error
    of the database from the API-key step.  With [SECRET_KEY] unset the
    [TypeError] is the lot of every bearer token that parses and names
    HS256, whatever its signature and claims; the other bearer tokens are
    answered 401. *)
Theorem similarity_service_401 app now authorization req_data r :
  let answer := similarity_service app now authorization req_data r in
  match (validate_jwt app now authorization r).1 with
  | Ok _ =>
      match (validate_api_key app (req_api_key req_data) r).1 with
      | Ok _ => ∀ detail, answer.1 ≠ Raise (HTTPException 401 detail)
      | Raise err =>
          answer = (Raise err, r) ∧
          ((∃ detail,
              err = HTTPException 401 detail ∧
              detail ∈ ["API Key not provided."; "Invalid API Key."]) ∨
           err = OperationalError)
      end
  | Raise err =>
      answer = (Raise err, r) ∧
      ((∃ detail,
          err = HTTPException 401 detail ∧
          detail ∈ ["JWT Token not provided."; "JWT Token has expired.";
                    "Invalid JWT Token."]) ∨
       err = InvalidKeyError ∨ ∃ msg, err = TypeError msg)
  end ∧
  (SECRET_KEY app = None →
   ∀ rest, authorization = Some ("Bearer " +:+ rest) →
     ∃ token pieces msg,
       split " " rest = token :: pieces ∧
       answer
       = (if jwt_parses (jwt app) token
             && bool_decide (jwt_header_alg (jwt app) token = Some "HS256")
          then Raise (TypeError msg)
          else Raise (HTTPException 401 "Invalid JWT Token."), r)).
Proof.
  intros answer. subst answer. split.
  - unfold similarity_service, admission. rewrite !io_bind_unfold.
    destruct (validate_jwt_outcomes app now authorization r)
      as (out1 & -> & [->|[(detail & -> & Hdetail)|[->|[msg ->]]]]); cbn [fst].
    + rewrite io_bind_unfold.
      destruct (validate_api_key_outcomes app (req_api_key req_data) r)
        as (out2 & -> & [(row & -> & _)|[(detail & -> & Hdetail)| ->]]);
        cbn [fst].
      2:{ split; [done|]. left. by exists detail. }
      2:{ split; [done|]. by right. }
      intros detail.
      pose proof (_check_rate_limit_outcomes now (req_api_key req_data)
                    (row_account_type row) r) as Hout. cbn zeta in Hout.
      destruct (_check_rate_limit now (req_api_key req_data)
                  (row_account_type row) r) as [[[]|e1] r1]; cbn [fst] in *.
      * destruct (serve_entity app now (req_entity_input req_data) r1)
          as [[resp|e2] r2] eqn:Hserve; [done|].
        apply serve_entity_raises in Hserve as [->|[->| ->]]; done.
      * destruct Hout as [?|[?|?]]; simplify_eq; done.
    + split; [done|]. left. by exists detail.
    + split; [done|]. auto.
    + split; [done|]. right. right. by exists msg.
  - intros Hsecret rest ->.
    destruct (validate_jwt_bearer app now rest r)
      as (token & pieces & Hsplit & _ & Hjwt).
    exists token, pieces, "Expected a string value". split; [done|].
    destruct (jwt_parses (jwt app) token) eqn:Hparses; cbn [andb].
    2:{ apply similarity_service_token_refused. rewrite Hjwt.
        unfold jwt_decode. by rewrite Hparses. }
    case_bool_decide as Halg; apply similarity_service_token_refused;
      rewrite Hjwt; unfold jwt_decode, jwt_prepare_key; rewrite Hparses; cbn.
    + rewrite Halg, Hsecret. rewrite bool_decide_true by left. done.
    + destruct (jwt_header_alg (jwt app) token) as [alg|]; [|done].
      rewrite bool_decide_false; [done|].
      intros Hin%list_elem_of_singleton. congruence.
Qed.

(** X6. A request whose token and API key pass moves the counter of its
    key and minute by one, whether it is then refused, served from the
    cache or ranked; it is refused with 429 exactly when the counter goes
    beyond the limit of the tier on record. *)
Theorem authenticated_request_is_counted
    app now authorization req_data r row count :
  (validate_jwt app now authorization r).1 = Ok () →
  (validate_api_key app (req_api_key req_data) r).1 = Ok row →
  let key := usage_key (req_api_key req_data) (now / 60) in
  let limit := if decide (row_account_type row = "PREMIUM") then 50 else 5 in
  counter_at now key r = Some count → count < INT64_MAX →
  counter_at now key (similarity_service app now authorization req_data r).2
  = Some (count + 1) ∧
  ((similarity_service app now authorization req_data r).1
   = Raise (HTTPException 429 "Rate limit exceeded. Please try again later.")
   ↔ limit < count + 1).
Proof.
  intros Hjwt Hkey key limit Hcount Hmax.
  unfold similarity_service, admission. rewrite !io_bind_unfold.
  destruct (validate_jwt_outcomes app now authorization r) as (out1 & Hrun1 & _).
  rewrite Hrun1 in Hjwt |- *. cbn [fst] in Hjwt. subst out1.
  rewrite io_bind_unfold.
  destruct (validate_api_key_outcomes app (req_api_key req_data) r)
    as (out2 & Hrun2 & _).
  rewrite Hrun2 in Hkey |- *. cbn [fst] in Hkey. subst out2.
  destruct (_check_rate_limit_entry now (req_api_key req_data)
              (row_account_type row) r count Hcount Hmax) as (x & Hentry).
  destruct (_check_rate_limit_step now (req_api_key req_data)
              (row_account_type row) r count Hcount Hmax) as (r1 & Hstep & _).
  fold key in Hentry. fold limit in Hstep. rewrite Hstep in Hentry |- *.
  cbn [snd] in Hentry. unfold verdict.
  destruct (Z.leb_spec (count + 1) limit) as [Hle|Hgt].
  - destruct (serve_entity app now (req_entity_input req_data) r1)
      as [out r2] eqn:Hserve. cbn [fst snd]. split.
    + apply serve_entity_writes in Hserve
        as [->|(key0 & doc & _ & Hnone & ->)].
      * unfold counter_at. by rewrite Hentry.
      * assert (key0 ≠ key) by (intros ->; congruence).
        unfold counter_at. rewrite redis_lookup_insert_ne by done.
        by rewrite Hentry.
    + split; [|lia]. intros ->.
      apply serve_entity_raises in Hserve as [?|[?|?]]; done.
  - cbn [fst snd]. split; [|done]. unfold counter_at. by rewrite Hentry.
Qed.

(** X7. An entity input that spells the usage key of its own request is
    never served: the counter that the rate limiter has just written is
    read back as a cached result and fails the response model. *)
Theorem usage_key_as_entity_input app now authorization req_data r row count :
  (validate_jwt app now authorization r).1 = Ok () →
  (validate_api_key app (req_api_key req_data) r).1 = Ok row →
  let key := usage_key (req_api_key req_data) (now / 60) in
  let limit := if decide (row_account_type row = "PREMIUM") then 50 else 5 in
  counter_at now key r = Some count → count + 1 ≤ limit →
  req_entity_input req_data = PyStr key →
  (similarity_service app now authorization req_data r).1 = Raise ValidationError.
Proof.
  intros Hjwt Hkey key limit Hcount Hlimit Hinput.
  assert (Hmax : count < INT64_MAX).
  { unfold INT64_MAX. subst limit. destruct (decide _); lia. }
  unfold similarity_service, admission. rewrite !io_bind_unfold.
  destruct (validate_jwt_outcomes app now authorization r) as (out1 & Hrun1 & _).
  rewrite Hrun1 in Hjwt |- *. cbn [fst] in Hjwt. subst out1.
  rewrite io_bind_unfold.
  destruct (validate_api_key_outcomes app (req_api_key req_data) r)
    as (out2 & Hrun2 & _).
  rewrite Hrun2 in Hkey |- *. cbn [fst] in Hkey. subst out2.
  destruct (_check_rate_limit_entry now (req_api_key req_data)
              (row_account_type row) r count Hcount Hmax) as (x & Hentry).
  destruct (_check_rate_limit_step now (req_api_key req_data)
              (row_account_type row) r count Hcount Hmax) as (r1 & Hstep & _).
  fold key in Hentry. fold limit in Hstep. rewrite Hstep in Hentry |- *.
  cbn [snd] in Hentry. unfold verdict.
  destruct (Z.leb_spec (count + 1) limit); [|lia].
  rewrite Hinput. unfold serve_entity. rewrite io_bind_unfold.
  unfold reading, get_cached_results. cbn. unfold redis_get.
  by rewrite Hentry.
Qed.

(** *** Tokens and keys *)

(** X8. With a process secret that PyJWT takes as a key, take a bearer
    token that parses, names HS256, is signed under that secret and carries
    a numeric [exp], its [iat] and [nbf] being numbers or absent.  Once
    [iat] and [nbf] have come, it is refused with 401 "JWT Token has
    expired." from the second its [exp] names onwards, and before that
    second it passes the token step if it names no audience and no later
    check refuses it.  While [iat] or [nbf] lies ahead it is refused with
    401 "Invalid JWT Token.", expired or not.  Refusing it writes nothing. *)
Theorem expired_token_rejected
    app now token_header req_data r key payload iat nbf exp :
  startswith "Bearer " token_header = true →
  SECRET_KEY app = Some key →
  jwt_key_usable (jwt app) key = true →
  ∃ token,
    py_index (split " " token_header) 1 = Ok token ∧
    (jwt_parses (jwt app) token = true →
     jwt_header_alg (jwt app) token = Some "HS256" →
     jwt_signature_ok (jwt app) key token = true →
     jwt_payload_of (jwt app) token = Some payload →
     claim_iat payload = claim_of iat →
     claim_nbf payload = claim_of nbf →
     claim_exp payload = ClaimInt exp →
     let early := ahead now iat || ahead now nbf in
     (early = false → exp ≤ now →
      similarity_service app now (Some token_header) req_data r
      = (Raise (HTTPException 401 "JWT Token has expired."), r)) ∧
     (early = true →
      similarity_service app now (Some token_header) req_data r
      = (Raise (HTTPException 401 "Invalid JWT Token."), r)) ∧
     (validate_jwt app now (Some token_header) r
      = (Raise (HTTPException 401 "JWT Token has expired."), r)
      ↔ early = false ∧ exp ≤ now) ∧
     (validate_jwt app now (Some token_header) r = (Ok (), r)
      ↔ early = false ∧ now < exp ∧
        claim_aud payload = false ∧ claim_rest payload = false)).
Proof.
  intros [rest ->]%prefix_app Hsecret Hkey.
  destruct (validate_jwt_bearer app now rest r)
    as (token & pieces & _ & Htoken & Hjwt).
  exists token. split; [done|].
  intros Hparses Halg Hsig Hpayload Hiat Hnbf Hexp early.
  assert (Hstep : validate_jwt app now (Some ("Bearer " +:+ rest)) r
          = (if early then Raise (HTTPException 401 "Invalid JWT Token.")
             else if exp <=? now
             then Raise (HTTPException 401 "JWT Token has expired.")
             else if claim_aud payload || claim_rest payload
             then Raise (HTTPException 401 "Invalid JWT Token.")
             else Ok (), r)).
  { rewrite Hjwt. f_equal. subst early.
    unfold jwt_decode, jwt_prepare_key. rewrite Hparses, Halg, Hsecret, Hkey.
    rewrite bool_decide_true by left. cbn. rewrite Hsig, Hpayload. cbn.
    unfold jwt_validate_claims. rewrite Hiat, Hnbf, Hexp.
    destruct iat as [iat|], nbf as [nbf|]; cbn;
      repeat (case_match; cbn; try done). }
  split_and!.
  - intros Hearly Hle. apply similarity_service_token_refused.
    rewrite Hstep, Hearly. by destruct (Z.leb_spec exp now); [|lia].
  - intros Hearly. apply similarity_service_token_refused.
    by rewrite Hstep, Hearly.
  - rewrite Hstep. destruct early; [by split; [|intros [? _]]|].
    destruct (Z.leb_spec exp now); [by split|].
    split; [|lia]. by destruct (_ || _).
  - rewrite Hstep. destruct early; [by split; [|intros [? _]]|].
    destruct (Z.leb_spec exp now); [split; [done|lia]|].
    destruct (claim_aud payload), (claim_rest payload); cbn;
      (split; [done || (intros _; split_and!; [done|lia|done|done])
              |by intros (_ & _ & ? & ?)]).
Qed.

(** X9. Whichever stored keys the database takes for the key supplied and
    whichever of the rows found it hands back, the API-key step lets a
    request pass only on a stored row whose key is, letter for letter, the
    key supplied, and leaves the store alone.  When the database answers
    and compares keys letter for letter as well, the step passes exactly
    when the key is not empty and some row carries it. *)
Theorem validate_api_key_exact app api_key r :
  (∀ row r', validate_api_key app api_key r = (Ok row, r') →
     r' = r ∧ api_key ≠ "" ∧ row ∈ api_keys app ∧ row_api_key row = api_key) ∧
  (select_raises (postgres app) = false →
   (∀ stored, sql_eq (postgres app) stored api_key = true ↔ stored = api_key) →
   (∃ row, validate_api_key app api_key r = (Ok row, r))
   ↔ api_key ≠ "" ∧ ∃ row, row ∈ api_keys app ∧ row_api_key row = api_key).
Proof.
  assert (Hpass : ∀ row r', validate_api_key app api_key r = (Ok row, r') →
    r' = r ∧ api_key ≠ "" ∧ row ∈ api_keys app ∧ row_api_key row = api_key).
  { intros row r' Hrun.
    destruct (validate_api_key_outcomes app api_key r)
      as (out & Hout & [(row0 & -> & Hin & Hkey)|[(detail & -> & _)| ->]]);
      [|congruence..].
    rewrite Hout in Hrun. injection Hrun as -> ->.
    split_and!; [done| |done|done].
    intros ->. by unfold validate_api_key in Hout. }
  split; [exact Hpass|].
  intros Hup Hexact. split.
  - intros [row Hrun]. destruct (Hpass row r Hrun) as (_ & ? & ? & ?).
    split; [done|by exists row].
  - intros [Hne%String.eqb_neq (row & Hin & Hkey)].
    unfold validate_api_key. rewrite Hne, io_bind_unfold.
    destruct (get_api_key_info_is_Some (postgres app) (api_keys app)
                api_key row) as [found Hfound]; [done|done|by apply Hexact|].
    unfold lift. rewrite Hfound.
    apply get_api_key_info_Some in Hfound as [_ Heq%Hexact].
    rewrite (proj2 (String.eqb_eq _ _) Heq). by exists found.
Qed.

End ServiceExtras.

(** ** The result cache, beyond the claims *)

Section CacheExtras.
Context `{Score score}.
Implicit Types (r : redis score) (doc : json score).
Implicit Types (app : app_state score) (resp : SimilarityResponse score).

(** X10. What [set_cached_results] stores under a key, [get_cached_results]
    reads back at any later time as a hit that the response model turns
    into the stored list, whatever the key held before; reads of other keys
    are not affected. *)
Theorem cached_results_roundtrip (key : py_value) k
    (results : list (string * score)) r now :
  redis_key key = Ok k →
  let r' := (set_cached_results key results r).2 in
  (∃ c, get_cached_results now key r' = Ok (Some c) ∧
        SimilarityResponse_of c
        = Ok {| cache := true; result_list := results |}) ∧
  (∀ key' k', redis_key key' = Ok k' → k' ≠ k →
     get_cached_results now key' r' = get_cached_results now key' r).
Proof.
  intros Hkey r'. subst r'. unfold set_cached_results. rewrite Hkey. cbn [snd].
  unfold redis_set. split.
  - eexists. split.
    + unfold get_cached_results. rewrite Hkey. cbn. unfold redis_get.
      rewrite redis_lookup_insert_eq. cbn. reflexivity.
    + apply SimilarityResponse_of_json_dumps.
  - intros key' k' Hkey' Hne. unfold get_cached_results. rewrite Hkey'. cbn.
    unfold redis_get. by rewrite redis_lookup_insert_ne.
Qed.

Lemma serve_all_store app calls r :
  (∀ key doc, r !! key = Some (cached_entry doc) →
              serve_all app calls r !! key = Some (cached_entry doc)) ∧
  (cache_persistent r → cache_persistent (serve_all app calls r)).
Proof.
  revert r. induction calls as [|[[now authorization] req_data] calls IH];
    intros r; [done|].
  cbn [serve_all].
  destruct (similarity_service app now authorization req_data r)
    as [out r1] eqn:Hrun.
  apply similarity_service_store in Hrun as [Hdocs Hinv].
  destruct (IH r1) as [Hdocs1 Hinv1]. cbn [snd]. split; auto.
Qed.

Lemma response_is_cached app now authorization req_data r resp r' :
  cache_persistent r →
  similarity_service app now authorization req_data r = (Ok resp, r') →
  ∃ key doc,
    redis_key (req_entity_input req_data) = Ok key ∧
    r' !! key = Some (cached_entry doc) ∧
    SimilarityResponse_of {| cached_cache := true; cached_result := doc |}
    = Ok {| cache := true; result_list := result_list resp |}.
Proof.
  intros Hinv. unfold similarity_service. rewrite io_bind_unfold.
  destruct (admission app now authorization req_data r) as [[[]|e] r1] eqn:Hadm;
    [|done].
  apply admission_store in Hadm as [_ Hinv1].
  intros Hserve. eapply serve_entity_ok; [|exact Hserve]. auto.
Qed.

Lemma cached_document_served app now authorization req_data r key doc :
  redis_key (req_entity_input req_data) = Ok key →
  r !! key = Some (cached_entry doc) →
  (admission app now authorization req_data r).1 = Ok () →
  ∃ r',
    similarity_service app now authorization req_data r
    = (SimilarityResponse_of {| cached_cache := true; cached_result := doc |}, r').
Proof.
  intros Hkey Hdoc Hadmit.
  unfold similarity_service. rewrite io_bind_unfold.
  destruct (admission app now authorization req_data r) as [out r1] eqn:Hadm.
  cbn in Hadmit. subst out.
  apply admission_store in Hadm as [Hdocs _].
  exists r1. apply (serve_entity_hit _ _ _ key doc); auto.
Qed.

(** X11. First writer wins.  Once a request has been answered, every later
    request whose input has the same Redis key (the same value, or an
    integer and the string of its decimal digits) and that gets past the
    token, API-key and rate-limit checks is answered with cache=true and the
    result of that first answer, whatever requests were handled in
    between. *)
Theorem first_answer_is_kept
    app now1 authorization1 req1 r0 resp1 r1 calls now2 authorization2 req2 :
  cache_persistent r0 →
  similarity_service app now1 authorization1 req1 r0 = (Ok resp1, r1) →
  redis_key (req_entity_input req2) = redis_key (req_entity_input req1) →
  let r2 := serve_all app calls r1 in
  (admission app now2 authorization2 req2 r2).1 = Ok () →
  ∃ r3,
    similarity_service app now2 authorization2 req2 r2
    = (Ok {| cache := true; result_list := result_list resp1 |}, r3).
Proof.
  intros Hinv Hfirst Hsame r2 Hadmit.
  destruct (response_is_cached _ _ _ _ _ _ _ Hinv Hfirst)
    as (key & doc & Hkey & Hdoc & Hread).
  destruct (serve_all_store app calls r1) as [Hdocs _].
  destruct (cached_document_served app now2 authorization2 req2 r2 key doc)
    as (r3 & Hrun); [congruence|by apply Hdocs|done|].
  exists r3. by rewrite Hrun, Hread.
Qed.

(** X12. Starting from an empty store, after any run of requests every
    document in the store is free of an expiry, and a document that is in
    the store stays there unchanged through any further run. *)
Theorem cache_never_expires_nor_changes app calls calls' key doc :
  let r := serve_all app calls ∅ in
  cache_persistent r ∧
  (r !! key = Some (cached_entry doc) →
   serve_all app calls' r !! key = Some (cached_entry doc)).
Proof.
  intros r. split.
  - apply serve_all_store, cache_persistent_empty.
  - apply serve_all_store.
Qed.

End CacheExtras.

(** ** The rate limiter, beyond the claims *)

Section RateLimiterExtras.
Context `{Score score}.
Implicit Types (r : redis score).

(** *** The life of a counter *)

Lemma _check_rate_limit_first now api_key account_type r :
  let key := usage_key api_key (now / 60) in
  redis_lookup now key r = None →
  (_check_rate_limit now api_key account_type r).2
  = <[key := {| entry_value := RedisInt 1; entry_expiry := Some (now + 60) |}]> r.
Proof.
  intros key Hnone. unfold _check_rate_limit. fold key.
  rewrite io_bind_unfold. unfold redis_incr. rewrite Hnone. cbv beta iota.
  rewrite io_bind_unfold. cbn [Z.eqb Pos.eqb].
  unfold redis_expire. rewrite redis_lookup_insert_eq.
  cbn [entry_live entry_expiry entry_value].
  rewrite insert_insert_eq, io_bind_unfold, rate_limit_of_tier.
  unfold lift. by destruct (_ <? 1).
Qed.

Lemma _check_rate_limit_later now api_key account_type r n deadline :
  let key := usage_key api_key (now / 60) in
  r !! key = Some {| entry_value := RedisInt n; entry_expiry := Some deadline |} →
  now < deadline → 1 ≤ n < INT64_MAX →
  (_check_rate_limit now api_key account_type r).2
  = <[key := {| entry_value := RedisInt (n + 1);
                entry_expiry := Some deadline |}]> r.
Proof.
  intros key Hkey Hlive [Hpos Hmax]. unfold _check_rate_limit. fold key.
  rewrite io_bind_unfold. unfold redis_incr, redis_lookup. rewrite Hkey.
  unfold entry_live. cbn [entry_expiry entry_value].
  destruct (Z.ltb_spec now deadline); [|lia]. cbn [entry_expiry entry_value].
  destruct (Z.ltb_spec n INT64_MAX); [|lia]. cbv beta iota.
  rewrite io_bind_unfold. destruct (Z.eqb_spec (n + 1) 1); [lia|].
  unfold mret at 1, io_ret. rewrite io_bind_unfold, rate_limit_of_tier.
  unfold lift. by destruct (_ <? n + 1).
Qed.

Lemma check_all_later times api_key account_type w r n deadline :
  Forall (λ t, t / 60 = w ∧ t < deadline) times →
  r !! usage_key api_key w
  = Some {| entry_value := RedisInt n; entry_expiry := Some deadline |} →
  1 ≤ n → n + Z.of_nat (length times) ≤ INT64_MAX →
  (check_all times api_key account_type r).2 !! usage_key api_key w
  = Some {| entry_value := RedisInt (n + Z.of_nat (length times));
            entry_expiry := Some deadline |}.
Proof.
  intros Htimes. revert r n.
  induction Htimes as [|t times [Hw Hlive] _ IH]; intros r n Hkey Hpos Hmax.
  - cbn. by rewrite Z.add_0_r.
  - cbn [check_all length] in *. subst w.
    pose proof (_check_rate_limit_later t api_key account_type r n deadline
                  Hkey Hlive ltac:(lia)) as Hstep.
    destruct (_check_rate_limit t api_key account_type r) as [out r1].
    cbn [snd] in Hstep. subst r1.
    specialize (IH (<[usage_key api_key (t / 60) :=
                       {| entry_value := RedisInt (n + 1);
                          entry_expiry := Some deadline |}]> r) (n + 1)).
    destruct (check_all times api_key account_type _) as [outs r2].
    cbn [snd] in *. rewrite IH; [|by rewrite lookup_insert_eq|lia|lia].
    do 3 f_equal. lia.
Qed.

(** X13. The counter of a minute is started by the first request of that
    minute with an expiry 60 seconds later; the requests that follow in
    the minute, admitted or refused, add one each and leave the expiry
    alone.  So the counter holds the number of requests, can be read
    throughout the minute, and is gone 60 seconds after the first one. *)
Theorem counter_life api_key account_type t0 times r :
  let key := usage_key api_key (t0 / 60) in
  let r' := (check_all (t0 :: times) api_key account_type r).2 in
  redis_lookup t0 key r = None →
  Forall (λ t, t / 60 = t0 / 60) times →
  1 + Z.of_nat (length times) ≤ INT64_MAX →
  r' !! key
  = Some {| entry_value := RedisInt (1 + Z.of_nat (length times));
            entry_expiry := Some (t0 + 60) |} ∧
  (∀ t, t / 60 = t0 / 60 → counter_at t key r' = Some (1 + Z.of_nat (length times))) ∧
  (∀ t, t0 + 60 ≤ t → redis_lookup t key r' = None).
Proof.
  intros key r' Hnone Htimes Hmax.
  assert (Hentry : r' !! key
    = Some {| entry_value := RedisInt (1 + Z.of_nat (length times));
              entry_expiry := Some (t0 + 60) |}).
  { subst r'. cbn [check_all].
    pose proof (_check_rate_limit_first t0 api_key account_type r Hnone) as Hfirst.
    destruct (_check_rate_limit t0 api_key account_type r) as [out r1].
    cbn [snd] in Hfirst. subst r1.
    pose proof (check_all_later times api_key account_type (t0 / 60)
      (<[key := {| entry_value := RedisInt 1;
                   entry_expiry := Some (t0 + 60) |}]> r) 1 (t0 + 60)) as Hlater.
    destruct (check_all times api_key account_type _) as [outs r2].
    cbn [snd] in *. apply Hlater; [|by rewrite lookup_insert_eq|lia|lia].
    eapply Forall_impl; [exact Htimes|].
    intros t Hw. split; [done|]. by apply same_minute_lt. }
  split_and!; [done| |].
  - intros t Hw. unfold counter_at, redis_lookup. rewrite Hentry.
    unfold entry_live. cbn. apply same_minute_lt in Hw.
    by destruct (Z.ltb_spec t (t0 + 60)); [|lia].
  - intros t Hlate. unfold redis_lookup. rewrite Hentry.
    unfold entry_live. cbn. by destruct (Z.ltb_spec t (t0 + 60)); [lia|].
Qed.

(** *** Counters do not collide *)

Lemma count_char_app c (s1 s2 : string) :
  count_char c (s1 +:+ s2) = (count_char c s1 + count_char c s2)%nat.
Proof.
  induction s1 as [|c1 s1 IH]; [done|].
  change (String c1 s1 +:+ s2) with (String c1 (s1 +:+ s2)). cbn. rewrite IH. lia.
Qed.

Lemma app_sep_inj c (k1 p1 k2 p2 : string) :
  count_char c p1 = 0%nat → count_char c p2 = 0%nat →
  k1 +:+ String c p1 = k2 +:+ String c p2 → k1 = k2 ∧ p1 = p2.
Proof.
  intros Hp1 Hp2. revert k2.
  induction k1 as [|a k1 IH]; intros [|a' k2];
    rewrite ?(eq_refl : "" +:+ _ = _),
            ?(eq_refl : String _ _ +:+ _ = String _ (_ +:+ _)).
  - by intros [= ->].
  - intros [= -> ->]. rewrite count_char_app in Hp1. cbn in Hp1.
    rewrite Ascii.eqb_refl in Hp1. lia.
  - intros [= -> <-]. rewrite count_char_app in Hp2. cbn in Hp2.
    rewrite Ascii.eqb_refl in Hp2. lia.
  - intros [= -> Heq]. by destruct (IH _ Heq) as [-> ->].
Qed.

Lemma pretty_N_go_no_colon (x : N) (s : string) :
  count_char ":" s = 0%nat → count_char ":" (pretty_N_go x s) = 0%nat.
Proof.
  revert s. induction (N.lt_wf_0 x) as [x _ IH]; intros s Hs.
  assert (x = 0 ∨ 0 < x)%N as [->|Hpos] by lia.
  - by rewrite pretty_N_go_0.
  - rewrite pretty_N_go_step by done. apply IH.
    + by apply N.div_lt.
    + cbn. rewrite Hs. unfold pretty_N_char. by repeat case_match.
Qed.

Lemma pretty_Z_no_colon (w : Z) : count_char ":" (pretty w) = 0%nat.
Proof.
  assert (Hpos : ∀ p : positive, count_char ":" (pretty p) = 0%nat).
  { intros p. unfold pretty, pretty_positive, pretty, pretty_N.
    case_decide; [done|]. by apply pretty_N_go_no_colon. }
  destruct w as [|p|p]; unfold pretty, pretty_Z; [done|apply Hpos|].
  rewrite count_char_app, Hpos. done.
Qed.

(** X14. Two usage keys are the same only for the same API key and the
    same minute, so a run of checks for one API key changes no counter of
    another API key, nor of a minute it has no request in. *)
Theorem usage_keys_do_not_collide api_key1 w1 api_key2 w2 times account_type r :
  (usage_key api_key1 w1 = usage_key api_key2 w2 → api_key1 = api_key2 ∧ w1 = w2) ∧
  (api_key1 ≠ api_key2 ∨ Forall (λ t, t / 60 ≠ w2) times →
   (check_all times api_key1 account_type r).2 !! usage_key api_key2 w2
   = r !! usage_key api_key2 w2).
Proof.
  assert (Hinj : ∀ k k' w w', usage_key k w = usage_key k' w' → k = k' ∧ w = w').
  { intros k k' w w'. unfold usage_key. intros Heq.
    apply (inj (String.app _)) in Heq.
    change (":" +:+ pretty w) with (String ":" (pretty w)) in Heq.
    change (":" +:+ pretty w') with (String ":" (pretty w')) in Heq.
    apply app_sep_inj in Heq as [-> Hw]; [|apply pretty_Z_no_colon..].
    split; [done|]. by apply (inj pretty). }
  split; [apply Hinj|].
  intros Hother. apply check_all_frame.
  destruct Hother as [Hkey|Hminute].
  - apply Forall_forall. intros t _ [? _]%Hinj. congruence.
  - eapply Forall_impl; [exact Hminute|]. intros t Ht [_ ?]%Hinj. congruence.
Qed.

End RateLimiterExtras.

(** ** Registration and login, beyond the claims *)

Section SessionExtras.
Implicit Types (w : world) (sw : session_world) (db : databases).
Implicit Types (req_data : RegisterRequest).

Lemma get_user_info_None db email :
  get_user_info db email = None ↔ email ∉ doc_email <$> users db.
Proof.
  unfold get_user_info. induction (users db) as [|doc l IH]; cbn.
  - split; [intros _; apply not_elem_of_nil|done].
  - destruct (String.eqb_spec (doc_email doc) email) as [Heq|Hne].
    + split; [done|]. intros []. rewrite Heq. left.
    + rewrite IH, not_elem_of_cons. split; [by intros ?; split; [congruence|]|by intros [_ ?]].
Qed.

Lemma get_user_info_Some db email doc :
  get_user_info db email = Some doc → doc ∈ users db ∧ doc_email doc = email.
Proof.
  unfold get_user_info. intros [Hin Heq]%find_some.
  split; [by apply list_elem_of_In|by apply String.eqb_eq].
Qed.

Lemma register_user_consistent w req_data db :
  registry_consistent db → registry_consistent (register_user w req_data db).2.
Proof.
  intros (Hemails & Hrows & Hfile).
  unfold register_user, create_user_in_db.
  destruct (mongo_find_raises w); [done|].
  destruct (get_user_info db (email req_data)) as [doc|] eqn:Hnew; [done|].
  destruct (mongo_insert_raises w); [done|]. cbn [negb].
  set (credential := {| doc_email := email req_data;
                        doc_password := pwd_context_hash w (password req_data) |}).
  assert (Hfresh : email req_data ∉ doc_email <$> users db)
    by (by apply get_user_info_None).
  assert (Hemails' : NoDup (doc_email <$> users db ++ [credential])).
  { rewrite fmap_app. apply NoDup_app. split_and!; [done| |apply NoDup_singleton].
    intros x Hx [= ->]%list_elem_of_singleton. done. }
  assert (Hkeep : ∀ db' email0,
            users db' = users db ++ [credential] →
            is_Some (get_user_info db email0) → is_Some (get_user_info db' email0)).
  { intros db' email0 Husers [doc Hdoc].
    rewrite (get_user_info_app db db' email0 [credential] Husers), Hdoc. eauto. }
  unfold insert_api_key_in_db. destruct (postgres_raises w); cbn [snd].
  - split_and!; [done|done|]. intros row Hrow. apply Hkeep; [reflexivity|auto].
  - split_and!; [done| |].
    + cbn. rewrite fmap_app. apply NoDup_app.
      split_and!; [done| |apply NoDup_singleton].
      intros x Hx [= ->]%list_elem_of_singleton.
      apply list_elem_of_fmap in Hx as (row & Hemail & Hrow).
      destruct (Hfile row Hrow) as [doc Hdoc]. rewrite <- Hemail in Hdoc.
      congruence.
    + intros row [Hrow|Hrow%list_elem_of_singleton]%elem_of_app.
      * apply Hkeep; [reflexivity|auto].
      * subst row. cbn [row_user_email].
        erewrite (get_user_info_app db _ _ [credential]) by reflexivity.
        rewrite Hnew. subst credential. rewrite find_email_last. eauto.
Qed.

(** X15. Registration keeps the two stores in step: through any run of
    registrations, whatever the databases do, no email gets a second
    credential or a second key record, and no key record is written for an
    email that is not on file. *)
Theorem register_all_consistent calls db :
  registry_consistent db → registry_consistent (register_all calls db).
Proof.
  revert db. induction calls as [|[w req_data] calls IH]; intros db Hdb; [done|].
  cbn [register_all]. by apply IH, register_user_consistent.
Qed.

(** X23. Registration ends in one of three ways.  It answers 400, and
    writes nothing, exactly when MongoDB raises or the email is on file, so
    a database failure reads like a duplicate.  Otherwise the credential is
    stored, and either the key record is stored too and both key and tier
    are returned, or PostgreSQL raises, no key record is written and the
    call ends in [IndexError]. *)
Theorem register_user_outcomes w req_data db :
  let credential := {| doc_email := email req_data;
                       doc_password := pwd_context_hash w (password req_data) |} in
  let tier :=
    if contains CONDITION (email req_data) then "PREMIUM" else "FREEMIUM" in
  let key_record := {| row_api_key := token_hex w;
                       row_user_email := email req_data;
                       row_account_type := tier |} in
  if mongo_find_raises w || bool_decide (is_Some (get_user_info db (email req_data)))
     || mongo_insert_raises w
  then register_user w req_data db
       = (Raise (HTTPException 400 "User already exists or error creating user."),
          db)
  else if postgres_raises w
  then register_user w req_data db
       = (Raise IndexError,
          {| users := users db ++ [credential];
             api_keys_table := api_keys_table db |})
  else ∃ resp,
         register_user w req_data db
         = (Ok resp,
            {| users := users db ++ [credential];
               api_keys_table := api_keys_table db ++ [key_record] |}) ∧
         resp_api_key resp = Some (token_hex w) ∧
         resp_account_type resp = Some tier ∧ resp_token resp = None.
Proof.
  intros credential tier key_record.
  unfold register_user, create_user_in_db, insert_api_key_in_db.
  destruct (mongo_find_raises w); [done|]. cbn [orb].
  destruct (get_user_info db (email req_data)) as [doc|].
  { by rewrite bool_decide_true by (by eexists). }
  rewrite bool_decide_false by (by intros [? ?]). cbn [orb].
  destruct (mongo_insert_raises w); [done|]. cbn [negb].
  destruct (postgres_raises w); [done|]. cbn. by eexists.
Qed.

(** *** Tiers and keys *)

Lemma contains_unfold (needle s : string) :
  contains needle s
  = String.prefix needle s ||
    match s with
    | EmptyString => false
    | String _ s' => contains needle s'
    end.
Proof. by destruct s. Qed.

Lemma prefix_app_self (p rest : string) : String.prefix p (p +:+ rest) = true.
Proof.
  induction p as [|c p IH]; [by destruct rest|].
  change (String c p +:+ rest) with (String c (p +:+ rest)). cbn.
  by destruct (ascii_dec c c).
Qed.

(** [needle in s] holds exactly when [s] has [needle] somewhere inside. *)
Lemma contains_spec (needle s : string) :
  contains needle s = true ↔ ∃ a b, s = a +:+ needle +:+ b.
Proof.
  split.
  - induction s as [|c s IH]; rewrite contains_unfold.
    + rewrite orb_false_r. intros [rest ->]%prefix_app. by exists "", rest.
    + intros [[rest ->]%prefix_app|Htail]%orb_true_iff; [by exists "", rest|].
      destruct (IH Htail) as (a & b & ->). by exists (String c a), b.
  - intros (a & b & ->). induction a as [|c a IH].
    + change ("" +:+ needle +:+ b) with (needle +:+ b).
      by rewrite contains_unfold, prefix_app_self.
    + change (String c a +:+ needle +:+ b) with (String c (a +:+ needle +:+ b)).
      rewrite contains_unfold, IH. apply orb_true_r.
Qed.

(** X16. When the insertion goes through, the new key record is PREMIUM
    exactly when [gmail.com] occurs somewhere in the email, wherever that
    is, and FREEMIUM otherwise; the pair handed back carries the key drawn
    and that tier. *)
Theorem premium_tier_by_substring w user_email db :
  postgres_raises w = false →
  ∃ tier,
    insert_api_key_in_db w user_email db
    = (ResponseTuple (token_hex w) tier,
       {| users := users db;
          api_keys_table := api_keys_table db ++
            [{| row_api_key := token_hex w;
                row_user_email := user_email;
                row_account_type := tier |}] |}) ∧
    (tier = "PREMIUM" ∨ tier = "FREEMIUM") ∧
    (tier = "PREMIUM" ↔ ∃ a b, user_email = a +:+ "gmail.com" +:+ b).
Proof.
  intros Hpg. unfold insert_api_key_in_db. rewrite Hpg.
  pose proof (contains_spec CONDITION user_email) as Hspec.
  destruct (contains CONDITION user_email); eexists; (split; [reflexivity|]).
  - split; [by left|]. split; [intros _; by apply Hspec|done].
  - split; [by right|]. split; [done|]. intros Hsub. by apply Hspec in Hsub.
Qed.

(** *** Login *)

(** X18. Login fails with 400 "Invalid email or password." exactly when the
    email is not on file or the password does not verify against the
    stored hash: the two cases cannot be told apart from the answer. *)
Theorem login_user_uniform_failure sw now req_data db :
  login_user sw now req_data db
  = Raise (HTTPException 400 "Invalid email or password.")
  ↔ get_user_info db (email req_data) = None ∨
    ∃ user, get_user_info db (email req_data) = Some user ∧
            pwd_context_verify sw (password req_data) (doc_password user) = false.
Proof.
  unfold login_user, _verify_user_credentials, _generate_jwt_for_user.
  destruct (get_user_info db (email req_data)) as [user|]; cbn.
  - destruct (pwd_context_verify sw (password req_data) (doc_password user))
      eqn:Hverify; cbn.
    + split.
      * by destruct (getenv_SECRET_KEY sw) as [key|];
          [destruct (String.eqb key "")|]; cbn.
      * intros [?|(user' & [= <-] & ?)]; [done|congruence].
    + split; [|done]. intros _. right. by exists user.
  - split; [by left|done].
Qed.

(** X19. Whoever has registered can log in: when the password verifies
    against its own hash and the secret is set, login after a registration
    that stored the credential returns a token for that email that names
    the expiry one hour ahead, also when the key insertion of that
    registration failed. *)
Theorem register_then_login w sw now req_data db secret_key :
  get_user_info db (email req_data) = None →
  mongo_find_raises w = false →
  mongo_insert_raises w = false →
  pwd_context_verify sw (password req_data)
    (pwd_context_hash w (password req_data)) = true →
  getenv_SECRET_KEY sw = Some secret_key → secret_key ≠ "" →
  login_user sw now req_data (register_user w req_data db).2
  = Ok {| resp_api_key := None;
          resp_token :=
            Some (jwt_encode sw (email req_data) (now + 3600) secret_key);
          resp_message := Some "Welcome back!";
          resp_account_type := None |}.
Proof.
  intros Hnew Hfind Hinsert Hverify Hsecret Hne%String.eqb_neq.
  assert (Hfile : get_user_info (register_user w req_data db).2 (email req_data)
            = Some {| doc_email := email req_data;
                      doc_password := pwd_context_hash w (password req_data) |}).
  { unfold register_user, create_user_in_db, insert_api_key_in_db.
    rewrite Hnew, Hfind, Hinsert. cbn [negb].
    destruct (postgres_raises w); cbn [snd];
      erewrite (get_user_info_app db) by reflexivity;
      rewrite Hnew; apply find_email_last. }
  unfold login_user, _verify_user_credentials, _generate_jwt_for_user.
  rewrite Hfile. cbn [doc_password]. rewrite Hverify, Hsecret, Hne. reflexivity.
Qed.

(** X20. With the secret missing or empty, a login with good credentials
    yields no token and no [HTTPException] either: building the exception
    with the keyword [message] raises [TypeError]. *)
Theorem login_user_without_secret sw now req_data db user :
  get_user_info db (email req_data) = Some user →
  pwd_context_verify sw (password req_data) (doc_password user) = true →
  getenv_SECRET_KEY sw = None ∨ getenv_SECRET_KEY sw = Some "" →
  ∃ msg, login_user sw now req_data db = Raise (TypeError msg).
Proof.
  intros Hfile Hverify Hsecret.
  unfold login_user, _verify_user_credentials, _generate_jwt_for_user.
  rewrite Hfile, Hverify. cbn [negb].
  destruct Hsecret as [-> | ->]; by eexists.
Qed.

End SessionExtras.

(** ** From login to the service *)

Section SessionServiceExtras.
Context `{Score score}.
Implicit Types (app : app_state score) (r : redis score).

(** X17. The key a successful registration returns passes the API-key
    step of a service that reads the key table registration wrote, with the
    registrant's record and tier, when the key is not empty, the database
    answers, takes the key for itself and finds no older record for it. *)
Theorem registered_key_resolves app w req_data db resp db' r :
  register_user w req_data db = (Ok resp, db') →
  api_keys app = api_keys_table db' →
  ∃ key tier,
    resp_api_key resp = Some key ∧ resp_account_type resp = Some tier ∧
    (key ≠ "" →
     select_raises (postgres app) = false →
     sql_eq (postgres app) key key = true →
     (∀ row, row ∈ api_keys_table db →
             sql_eq (postgres app) (row_api_key row) key = false) →
     validate_api_key app key r
     = (Ok {| row_api_key := key;
              row_user_email := email req_data;
              row_account_type := tier |}, r)).
Proof.
  unfold register_user, create_user_in_db.
  destruct (mongo_find_raises w); [done|].
  destruct (get_user_info db (email req_data)); [done|].
  destruct (mongo_insert_raises w); [done|]. cbn [negb].
  unfold insert_api_key_in_db. destruct (postgres_raises w); [done|].
  cbn. intros [= <- <-] Htable. eexists _, _. split_and!; [done|done|].
  intros Hne%String.eqb_neq Hup Hself Hold.
  unfold validate_api_key. rewrite Hne, Htable, io_bind_unfold.
  cbn [api_keys_table]. unfold lift.
  set (record := {| row_api_key := token_hex w;
                    row_user_email := email req_data;
                    row_account_type :=
                      if contains CONDITION (email req_data)
                      then "PREMIUM" else "FREEMIUM" |}).
  rewrite (get_api_key_info_only _ _ _ record).
  - cbn. by rewrite String.eqb_refl.
  - done.
  - rewrite List.filter_app. cbn. rewrite Hself.
    assert (List.filter
              (λ row0, sql_eq (postgres app) (row_api_key row0) (token_hex w))
              (api_keys_table db) = []) as ->; [|done].
    clear -Hold. revert Hold. generalize (api_keys_table db). intros rows Hold.
    induction rows as [|row rows IH]; [done|]. cbn.
    rewrite (Hold row) by left. apply IH. intros row0 Hin. apply Hold. by right.
Qed.

(** X21. A session lasts one hour.  When login and the service share the
    secret, and PyJWT, which takes the secret as a key, reads back from the
    token that login had it encode for the expiry one hour ahead a
    well-formed token that names HS256, is signed under the secret, has no
    blank in it and carries that expiry and no other registered claim, the
    token passes the token step of the service at every second before the
    hour is over and is refused as expired from then on. *)
Theorem login_token_lifetime app sw t0 req_data db resp secret_key :
  login_user sw t0 req_data db = Ok resp →
  getenv_SECRET_KEY sw = Some secret_key →
  SECRET_KEY app = Some secret_key →
  let token := jwt_encode sw (email req_data) (t0 + 3600) secret_key in
  split " " token = [token] →
  jwt_parses (jwt app) token = true →
  jwt_header_alg (jwt app) token = Some "HS256" →
  jwt_key_usable (jwt app) secret_key = true →
  jwt_signature_ok (jwt app) secret_key token = true →
  jwt_payload_of (jwt app) token
  = Some {| claim_iat := ClaimAbsent;
            claim_nbf := ClaimAbsent;
            claim_exp := ClaimInt (t0 + 3600);
            claim_aud := false;
            claim_rest := false |} →
  resp_token resp = Some token ∧
  ∀ now r,
    validate_jwt app now (Some ("Bearer " +:+ token)) r
    = (if now <? t0 + 3600 then Ok ()
       else Raise (HTTPException 401 "JWT Token has expired."), r).
Proof.
  intros Hlogin Hsecret Happ token Hblank Hparses Halg Hkey Hsig Hpayload. split.
  - unfold login_user, _generate_jwt_for_user in Hlogin. rewrite Hsecret in Hlogin.
    destruct (negb _); [done|].
    destruct (String.eqb secret_key ""); [done|].
    cbn in Hlogin. by injection Hlogin as <-.
  - intros now r.
    destruct (validate_jwt_bearer app now token r)
      as (token' & pieces & Hsplit & _ & ->).
    rewrite Hblank in Hsplit. injection Hsplit as <- <-. f_equal.
    unfold jwt_decode, jwt_prepare_key. rewrite Hparses, Halg, Happ, Hkey.
    rewrite bool_decide_true by left. cbn. rewrite Hsig, Hpayload. cbn.
    by destruct (Z.leb_spec (t0 + 3600) now), (Z.ltb_spec now (t0 + 3600));
      try lia.
Qed.

End SessionServiceExtras.

(** ** The further theorems at work *)

Lemma predict_similarity_count_witness :
  ∃ res,
    predict_similarity sample_model (PyInt 2) 5 10 = Ok res ∧
    Z.of_nat (length res)
    = Z.min 10 (Z.min (Z.of_nat (length (model_score_t sample_model 2 5)))
                      (Z.of_nat (length (heads_idx sample_model)))) ∧
    ascending (res.*2).
Proof.
  apply predict_similarity_count.
  - exact sample_model_labels_total.
  - reflexivity.
  - lia.
Defined.

Lemma predict_similarity_total_witness :
  ∃ res,
    predict_similarity sample_model (PyInt 7) 5 10 = Ok res ∧
    ∀ e, _validate_input sample_model (PyInt 7) = Raise e →
      ∃ msg, (e = ValueError msg ∨ e = TypeError msg) ∧ res = [(msg, -1)].
Proof.
  exact (predict_similarity_total sample_model (PyInt 7) 5 10
           sample_model_labels_total).
Defined.

Lemma _filter_head_spec_witness :
  _filter_head "http://ex.org/pronto.owl#space_site_1" = true.
Proof.
  apply _filter_head_spec. split; [reflexivity|].
  exists "http://ex.org/pronto.owl", "space_site_1". by vm_compute.
Defined.

Lemma sample_head_factory_agrees : tables_agree sample_head_factory.
Proof.
  intros label i. unfold sample_head_factory. cbn [entity_to_id entity_id_to_label].
  intros Hid. rewrite !lookup_insert_Some, lookup_singleton_Some in Hid.
  destruct Hid as [[<- <-]|[_ [[<- <-]|[_ [<- <-]]]]]; reflexivity.
Qed.

Lemma load_candidates_witness :
  ∃ self : TransHModel Z,
    load (λ _ _, [30; 10; 40]) sample_head_factory sample_heads = Ok self ∧
    heads_idx self = [0; 2] ∧
    ∀ i, i ∈ heads_idx self →
      ∃ label, entity_id_to_label (triples_factory self) !! i = Some label ∧
               CellStr label ∈ sample_heads ∧ _filter_head label = true.
Proof.
  pose proof (load_candidates (λ _ _, [30; 10; 40]) sample_head_factory
                sample_heads ltac:(discriminate)) as Hload.
  destruct (load (λ _ _, [30; 10; 40]) sample_head_factory sample_heads)
    as [self|e] eqn:Hself; [|by vm_compute in Hself].
  exists self. destruct Hload as (_ & _ & _ & Hlabels).
  split_and!; [done| |exact (Hlabels sample_head_factory_agrees)].
  vm_compute in Hself. by injection Hself as <-.
Defined.

Lemma authenticated_request_is_counted_witness :
  counter_at 10 (usage_key "k1" 0)
    (similarity_service sample_app 10 (Some "Bearer good")
       (sample_request (PyInt 2)) ∅).2
  = Some 1.
Proof.
  apply (authenticated_request_is_counted sample_app 10 (Some "Bearer good")
           (sample_request (PyInt 2)) ∅
           {| row_api_key := "k1";
              row_user_email := "alice@example.com";
              row_account_type := "FREEMIUM" |} 0).
  - reflexivity.
  - reflexivity.
  - reflexivity.
  - reflexivity.
Defined.

Lemma usage_key_as_entity_input_witness :
  (similarity_service sample_app 10 (Some "Bearer good")
     (sample_request (PyStr "usage:k1:0")) ∅).1
  = Raise ValidationError.
Proof.
  apply (usage_key_as_entity_input sample_app 10 (Some "Bearer good")
           (sample_request (PyStr "usage:k1:0")) ∅
           {| row_api_key := "k1";
              row_user_email := "alice@example.com";
              row_account_type := "FREEMIUM" |} 0).
  - reflexivity.
  - reflexivity.
  - reflexivity.
  - vm_compute. discriminate.
  - reflexivity.
Defined.

Lemma expired_token_rejected_witness :
  similarity_service sample_app 4102444800 (Some "Bearer good")
    (sample_request (PyInt 2)) ∅
  = (Raise (HTTPException 401 "JWT Token has expired."), ∅).
Proof.
  destruct (expired_token_rejected sample_app 4102444800 "Bearer good"
              (sample_request (PyInt 2)) ∅ "secret"
              {| claim_iat := ClaimAbsent;
                 claim_nbf := ClaimAbsent;
                 claim_exp := ClaimInt 4102444800;
                 claim_aud := false;
                 claim_rest := false |} None None 4102444800
              eq_refl eq_refl eq_refl) as (token & Htoken & Hexp).
  vm_compute in Htoken. injection Htoken as <-.
  apply Hexp; [reflexivity..|lia].
Defined.

Lemma validate_api_key_exact_witness :
  ∃ row, validate_api_key sample_app "k1" ∅ = (Ok row, ∅).
Proof.
  destruct (validate_api_key_exact sample_app "k1" ∅) as [_ Hexact].
  apply Hexact.
  - reflexivity.
  - intros stored. apply String.eqb_eq.
  - split; [discriminate|]. eexists. split; [left|reflexivity].
Defined.

(** With the secret unset, the token [good] gets no 401: the request ends
    in the [TypeError] of the library. *)
Lemma similarity_service_401_witness :
  ∃ msg,
    similarity_service
      {| SECRET_KEY := None;
         jwt := sample_jwt;
         postgres := sample_postgres;
         api_keys := api_keys sample_app;
         transh_model := sample_model |}
      10 (Some "Bearer good") (sample_request (PyInt 2)) ∅
    = (Raise (TypeError msg), ∅).
Proof.
  destruct (similarity_service_401
              {| SECRET_KEY := None;
                 jwt := sample_jwt;
                 postgres := sample_postgres;
                 api_keys := api_keys sample_app;
                 transh_model := sample_model |}
              10 (Some "Bearer good") (sample_request (PyInt 2)) ∅)
    as [_ Hunset].
  destruct (Hunset eq_refl "good" eq_refl)
    as (token & pieces & msg & Hsplit & Hanswer).
  vm_compute in Hsplit. injection Hsplit as <- <-. by exists msg.
Defined.

Lemma cached_results_roundtrip_witness :
  ∃ c, get_cached_results 1000 (PyInt 2)
         (set_cached_results (PyInt 2) [("a", 10); ("c", 30)] (∅ : redis Z)).2
       = Ok (Some c) ∧
       SimilarityResponse_of c
       = Ok {| cache := true; result_list := [("a", 10); ("c", 30)] |}.
Proof.
  apply (cached_results_roundtrip (PyInt 2) "2" [("a", 10); ("c", 30)] ∅ 1000).
  reflexivity.
Defined.

(** The candidate 2 is ranked for the integer 2; the string "2", no label
    of any entity, is then answered from the same entry. *)
Lemma first_answer_is_kept_witness :
  ∃ r3,
    similarity_service sample_app 130 (Some "Bearer good")
      (sample_request (PyStr "2"))
      (serve_all sample_app
         [(70, Some "Bearer good", sample_request (PyInt 0))]
         (similarity_service sample_app 10 (Some "Bearer good")
            (sample_request (PyInt 2)) ∅).2)
    = (Ok {| cache := true; result_list := [("a", 10); ("c", 30)] |}, r3).
Proof.
  apply (first_answer_is_kept sample_app 10 (Some "Bearer good")
           (sample_request (PyInt 2)) ∅
           {| cache := false; result_list := [("a", 10); ("c", 30)] |}).
  - apply cache_persistent_empty.
  - vm_compute. reflexivity.
  - reflexivity.
  - vm_compute. reflexivity.
Defined.

Lemma cache_never_expires_nor_changes_witness :
  serve_all sample_app
    [(70, Some "Bearer good", sample_request (PyInt 0))]
    (serve_all sample_app
       [(10, Some "Bearer good", sample_request (PyInt 2))] ∅) !! "2"
  = Some (cached_entry (json_dumps [("a", 10); ("c", 30)])).
Proof.
  apply (cache_never_expires_nor_changes sample_app
           [(10, Some "Bearer good", sample_request (PyInt 2))]).
  vm_compute. reflexivity.
Defined.

Lemma counter_life_witness :
  (check_all [5; 20; 59] "k1" "FREEMIUM" (∅ : redis Z)).2 !! usage_key "k1" 0
  = Some {| entry_value := RedisInt 3; entry_expiry := Some 65 |}.
Proof.
  apply (counter_life "k1" "FREEMIUM" 5 [20; 59] (∅ : redis Z)).
  - reflexivity.
  - repeat constructor.
  - vm_compute. discriminate.
Defined.

Lemma usage_keys_do_not_collide_witness :
  (check_all [5; 20; 59] "k1" "FREEMIUM" (∅ : redis Z)).2 !! usage_key "k2" 0
  = (∅ : redis Z) !! usage_key "k2" 0.
Proof.
  apply (usage_keys_do_not_collide "k1" 0 "k2" 0). left. discriminate.
Defined.

Lemma registry_consistent_empty : registry_consistent empty_databases.
Proof.
  split_and!; [apply NoDup_nil_2..|]. intros row Hrow. by apply elem_of_nil in Hrow.
Qed.

Lemma register_all_consistent_witness :
  registry_consistent
    (register_all [(sample_world true, sample_registration);
                   (sample_world false, sample_registration)]
       empty_databases).
Proof. apply register_all_consistent. exact registry_consistent_empty. Defined.

Lemma premium_tier_by_substring_witness :
  ∃ tier,
    insert_api_key_in_db (sample_world false) "gmail.company@example.org"
      empty_databases
    = (ResponseTuple (token_hex (sample_world false)) tier,
       {| users := users empty_databases;
          api_keys_table := api_keys_table empty_databases ++
            [{| row_api_key := token_hex (sample_world false);
                row_user_email := "gmail.company@example.org";
                row_account_type := tier |}] |}) ∧
    (tier = "PREMIUM" ∨ tier = "FREEMIUM") ∧
    (tier = "PREMIUM"
     ↔ ∃ a b, "gmail.company@example.org" = a +:+ "gmail.com" +:+ b).
Proof. apply premium_tier_by_substring. reflexivity. Defined.

(** Alice registers, and the service reads the key table that her
    registration wrote. *)
Lemma registered_key_resolves_witness :
  validate_api_key
    {| SECRET_KEY := Some "secret";
       jwt := sample_jwt;
       postgres := sample_postgres;
       api_keys :=
         api_keys_table
           (register_user (sample_world false) sample_registration
              empty_databases).2;
       transh_model := sample_model |}
    (token_hex (sample_world false)) ∅
  = (Ok {| row_api_key := token_hex (sample_world false);
           row_user_email := "alice@example.com";
           row_account_type := "FREEMIUM" |}, ∅).
Proof.
  destruct (registered_key_resolves
              {| SECRET_KEY := Some "secret";
                 jwt := sample_jwt;
                 postgres := sample_postgres;
                 api_keys :=
                   api_keys_table
                     (register_user (sample_world false) sample_registration
                        empty_databases).2;
                 transh_model := sample_model |}
              (sample_world false) sample_registration empty_databases
              {| resp_api_key := Some (token_hex (sample_world false));
                 resp_token := None;
                 resp_message := Some "User registered successfully. Copy your API Key and keep it safe! IT WON'T BE SHOWN AGAIN.";
                 resp_account_type := Some "FREEMIUM" |}
              (register_user (sample_world false) sample_registration
                 empty_databases).2 ∅ eq_refl eq_refl)
    as (key & tier & [= <-] & [= <-] & Hpass).
  apply Hpass.
  - discriminate.
  - reflexivity.
  - reflexivity.
  - intros row Hrow. by apply elem_of_nil in Hrow.
Defined.

(** Alice registers while PostgreSQL is down, and logs in all the same. *)
Lemma register_then_login_witness :
  login_user sample_session_world 100 sample_registration
    (register_user (sample_world true) sample_registration empty_databases).2
  = Ok {| resp_api_key := None;
          resp_token := Some "good";
          resp_message := Some "Welcome back!";
          resp_account_type := None |}.
Proof.
  apply (register_then_login (sample_world true) sample_session_world 100
           sample_registration empty_databases "secret").
  - reflexivity.
  - reflexivity.
  - reflexivity.
  - reflexivity.
  - reflexivity.
  - discriminate.
Defined.

Lemma login_user_without_secret_witness :
  ∃ msg,
    login_user {| pwd_context_verify := pwd_context_verify sample_session_world;
                  getenv_SECRET_KEY := None;
                  jwt_encode := jwt_encode sample_session_world |}
      100 sample_registration
      (register_user (sample_world false) sample_registration empty_databases).2
    = Raise (TypeError msg).
Proof.
  apply (login_user_without_secret _ 100 sample_registration _
           {| doc_email := "alice@example.com"; doc_password := "$2b$secret1" |}).
  - reflexivity.
  - reflexivity.
  - by left.
Defined.

Lemma login_token_lifetime_witness :
  validate_jwt sample_app 4102444799 (Some "Bearer good") ∅ = (Ok (), ∅) ∧
  validate_jwt sample_app 4102444800 (Some "Bearer good") ∅
  = (Raise (HTTPException 401 "JWT Token has expired."), ∅).
Proof.
  destruct (login_token_lifetime sample_app sample_session_world 4102441200
              sample_registration
              (register_user (sample_world false) sample_registration
                 empty_databases).2
              {| resp_api_key := None;
                 resp_token := Some "good";
                 resp_message := Some "Welcome back!";
                 resp_account_type := None |} "secret")
    as [_ Hlife]; [reflexivity..|].
  split.
  - exact (Hlife 4102444799 ∅).
  - exact (Hlife 4102444800 ∅).
Defined.

Lemma _extract_top_entities_batch_witness :
  _extract_top_entities sample_model [[10; 20]; [5; 7; 9]] [[1; 3]; [0; 1]] 2
  = Ok [("a", 10); ("c", 5)].
Proof.
  rewrite (_extract_top_entities_batch sample_model
             [[10; 20]; [5; 7; 9]] [[1; 3]; [0; 1]] 2 sample_model_labels_total).
  reflexivity.
Defined.
